(** * Warehouse free-space registry: a shallow embedding of [main.py]

    The service keeps two module-level dictionaries, [locations] and
    [reservations], and exposes the endpoints [get_locations], [reserve],
    [occupy], [free] and [move] over them.  [Main.py] carries the same
    endpoint bodies, so one embedding covers both files.

    Python dictionaries iterate in insertion order and [get_locations] scans
    [locations.values()], so the location catalogue is an ordered association
    list with the dictionary's get / set-in-place discipline.  The
    reservation ledger is only read and written by key and is a [gmap].
    Endpoint bodies are written in a small state-and-exception monad so that
    every read, write and [raise] of the source appears in the model.

    The synthetic dataset generators of both files, with the id helpers
    [_aisle_letters] and [_level_letter], are modelled over an oracle for the
    random draws. *)

From Stdlib Require Import ZArith Lia DecimalString.
From stdpp Require Import gmap strings list fin_maps.

Local Open Scope string_scope.

(** ** Data model *)

(** One row of the catalogue: the dictionary built by [load_locations]. *)
Record Location := mkLocation {
  loc_id : string;
  area_id : string;
  area_type : string;
  aisle : option Z;
  bay : option Z;
  level : option Z;
  position : option Z;
  length_mm : Z;
  width_mm : Z;
  height_mm : Z;
  max_weight_kg : Z;
  status : string;
  group_id : string
}.

(** The pydantic model [Reservation]; [res.dict()] copies it field by field,
    so the stored dictionary is the record itself. *)
Record Reservation := mkReservation {
  res_id : string;
  location_ids : list string;
  ref : option string;
  from_ts : option string;
  until_ts : option string;
  res_status : string
}.

(** ** Ordered dictionaries *)

Module Dict.
Section Ops.
Context {V : Type}.

(** [d.get(k)] *)
Fixpoint get (k : string) (d : list (string * V)) : option V :=
  match d with
  | [] => None
  | (k', v) :: d' => if String.eqb k k' then Some v else get k d'
  end.

(** [k in d] *)
Definition mem (k : string) (d : list (string * V)) : bool :=
  match get k d with Some _ => true | None => false end.

(** [d[k] = v]: an existing key keeps its place, a new one goes last. *)
Fixpoint set (k : string) (v : V) (d : list (string * V)) : list (string * V) :=
  match d with
  | [] => [(k, v)]
  | (k', v') :: d' =>
      if String.eqb k k' then (k, v) :: d' else (k', v') :: set k v d'
  end.

(** [d.keys()] and [d.values()] *)
Definition keys (d : list (string * V)) : list string := map fst d.
Definition values (d : list (string * V)) : list V := map snd d.
End Ops.
End Dict.

(** ** Process state and the endpoint monad *)

Record State := mkState {
  locations : list (string * Location);
  reservations : gmap string Reservation
}.

(** What an endpoint can raise: the [HTTPException]s it constructs, and the
    [KeyError] of a subscript on a missing key. *)
Inductive Exn :=
| HTTPException (status_code : Z) (detail : string)
| KeyError (key : string).

(** The JSON bodies the endpoints return. *)
Inductive Response :=
| RespHealth (n : nat)
| RespLocations (count : nat) (items : list Location)
| RespReservation (reservation : Reservation)
| RespLocation (location : Location)
| RespMove (from to : Location).

Definition M (A : Type) : Type := State -> State * (Exn + A).

Definition ret {A} (a : A) : M A := fun s => (s, inr a).

Definition bind {A B} (m : M A) (k : A -> M B) : M B :=
  fun s =>
    match m s with
    | (s', inl e) => (s', inl e)
    | (s', inr a) => k a s'
    end.

Definition raise {A} (e : Exn) : M A := fun s => (s, inl e).

Declare Scope py_scope.
Delimit Scope py_scope with py.
Notation "'let!' x := m 'in' k" := (bind m (fun x => k))
  (at level 10, x name, m at level 100, k at level 200) : py_scope.
Notation "m >> k" := (bind m (fun _ => k))
  (at level 90, right associativity) : py_scope.
Local Open Scope py_scope.

(** [if c: raise e] *)
Definition raise_if (c : bool) (e : Exn) : M unit :=
  if c then raise e else ret tt.

(** [for x in xs: body(x)] *)
Fixpoint for_each {A} (xs : list A) (body : A -> M unit) : M unit :=
  match xs with
  | [] => ret tt
  | x :: xs' => body x >> for_each xs' body
  end.

(** [lid in locations] *)
Definition loc_in (lid : string) : M bool :=
  fun s => (s, inr (Dict.mem lid (locations s))).

(** [locations[lid]] *)
Definition loc_get (lid : string) : M Location :=
  fun s =>
    match Dict.get lid (locations s) with
    | Some loc => (s, inr loc)
    | None => (s, inl (KeyError lid))
    end.

(** [locations[lid]["status"]] *)
Definition loc_status (lid : string) : M string :=
  let! loc := loc_get lid in ret (status loc).

Definition with_status (v : string) (loc : Location) : Location :=
  {| loc_id := loc_id loc; area_id := area_id loc; area_type := area_type loc;
     aisle := aisle loc; bay := bay loc; level := level loc; position := position loc;
     length_mm := length_mm loc; width_mm := width_mm loc; height_mm := height_mm loc;
     max_weight_kg := max_weight_kg loc; status := v; group_id := group_id loc |}.

(** [locations[lid]["status"] = v]: the row object is updated in place, so
    the entry keeps its position in the catalogue. *)
Definition set_status (lid v : string) : M unit :=
  fun s =>
    match Dict.get lid (locations s) with
    | Some loc =>
        ({| locations := Dict.set lid (with_status v loc) (locations s);
            reservations := reservations s |}, inr tt)
    | None => (s, inl (KeyError lid))
    end.

(** [reservations[rid] = d] *)
Definition res_put (rid : string) (d : Reservation) : M unit :=
  fun s =>
    ({| locations := locations s; reservations := <[rid := d]> (reservations s) |}, inr tt).

(** [reservations[rid]] *)
Definition res_get (rid : string) : M Reservation :=
  fun s =>
    match reservations s !! rid with
    | Some d => (s, inr d)
    | None => (s, inl (KeyError rid))
    end.

(** ** Loader *)

(** [load_locations], after the CSV reader and the [int] conversions:
    [locations[r["id"]] = r] for each row in file order. *)
Definition load_locations (rows : list Location) : list (string * Location) :=
  foldl (fun d r => Dict.set (loc_id r) r d) [] rows.

Definition init_state (rows : list Location) : State :=
  {| locations := load_locations rows; reservations := ∅ |}.

(** ** Endpoints *)

Definition health : M Response :=
  fun s => (s, inr (RespHealth (length (locations s)))).

(** The parameters of [get_locations].  The [Query(regex=...)] patterns on
    [status] and [area_type] are enforced by the framework before the body
    runs; the body itself takes any optional string. *)
Record LocationQuery := mkQuery {
  q_status : option string;
  q_area_type : option string;
  q_area_id : option string;
  min_l : option Z;
  min_w : option Z;
  min_h : option Z;
  min_weight : option Z;
  q_group_id : option string;
  limit : Z
}.

Definition no_filter : LocationQuery :=
  {| q_status := None; q_area_type := None; q_area_id := None;
     min_l := None; min_w := None; min_h := None; min_weight := None;
     q_group_id := None; limit := 100 |}.

(** Truth value of an [Optional[str]] / [Optional[int]] in an [if]. *)
Definition truthy_str (o : option string) : bool :=
  match o with Some v => negb (String.eqb v "") | None => false end.

Definition truthy_int (o : option Z) : bool :=
  match o with Some n => negb (n =? 0)%Z | None => false end.

(** [if f and field != f: continue] *)
Definition skip_ne (f : option string) (field : string) : bool :=
  truthy_str f && match f with Some v => negb (String.eqb field v) | None => false end.

(** [if f and field < f: continue] *)
Definition skip_lt (f : option Z) (field : Z) : bool :=
  truthy_int f && match f with Some n => (field <? n)%Z | None => false end.

(** The eight [continue] guards of the loop body, in source order. *)
Definition skipped (q : LocationQuery) (loc : Location) : bool :=
  skip_ne (q_status q) (status loc)
  || skip_ne (q_area_type q) (area_type loc)
  || skip_ne (q_area_id q) (area_id loc)
  || skip_ne (q_group_id q) (group_id loc)
  || skip_lt (min_l q) (length_mm loc)
  || skip_lt (min_w q) (width_mm loc)
  || skip_lt (min_h q) (height_mm loc)
  || skip_lt (min_weight q) (max_weight_kg loc).

(** The scan loop: append, then [if len(results) >= limit: break]. *)
Fixpoint scan (q : LocationQuery) (locs results : list Location) : list Location :=
  match locs with
  | [] => results
  | loc :: rest =>
      if skipped q loc then scan q rest results
      else
        let results' := (results ++ [loc])%list in
        if (limit q <=? Z.of_nat (length results'))%Z then results'
        else scan q rest results'
  end.

Definition get_locations (q : LocationQuery) : M Response :=
  fun s =>
    let results := scan q (Dict.values (locations s)) [] in
    (s, inr (RespLocations (length results) results)).

(** The messages of [reserve]'s two [HTTPException]s. *)
Definition not_found (lid : string) : Exn :=
  HTTPException 404 ("Location " +:+ lid +:+ " not found").

Definition not_free (lid : string) : Exn :=
  HTTPException 409 ("Location " +:+ lid +:+ " not FREE").

(** Body of [reserve]'s first loop: both tests on one id. *)
Definition reserve_check (lid : string) : M unit :=
  let! present := loc_in lid in
  raise_if (negb present) (not_found lid) >>
  let! st := loc_status lid in
  raise_if (negb (String.eqb st "FREE")) (not_free lid).

Definition reserve (res : Reservation) : M Response :=
  for_each (location_ids res) reserve_check >>
  for_each (location_ids res) (fun lid => set_status lid "RESERVED") >>
  res_put (res_id res) res >>
  let! stored := res_get (res_id res) in
  ret (RespReservation stored).

(** [st not in ("FREE", "RESERVED")] *)
Definition not_free_or_reserved (st : string) : bool :=
  negb (String.eqb st "FREE" || String.eqb st "RESERVED").

Definition occupy (location_id : string) (pallet_ref : option string) : M Response :=
  let! present := loc_in location_id in
  raise_if (negb present) (HTTPException 404 "Location not found") >>
  let! st := loc_status location_id in
  raise_if (not_free_or_reserved st) (HTTPException 409 "Location not FREE/RESERVED") >>
  set_status location_id "OCCUPIED" >>
  let! loc := loc_get location_id in
  ret (RespLocation loc).

Definition free (location_id : string) : M Response :=
  let! present := loc_in location_id in
  raise_if (negb present) (HTTPException 404 "Location not found") >>
  set_status location_id "FREE" >>
  let! loc := loc_get location_id in
  ret (RespLocation loc).

Definition move (from_location_id to_location_id : string) (pallet_ref : option string)
  : M Response :=
  let! from_in := loc_in from_location_id in
  let! to_in := loc_in to_location_id in
  raise_if (negb from_in || negb to_in) (HTTPException 404 "Location not found") >>
  let! from_st := loc_status from_location_id in
  raise_if (negb (String.eqb from_st "OCCUPIED"))
    (HTTPException 409 "From location not OCCUPIED") >>
  let! to_st := loc_status to_location_id in
  raise_if (not_free_or_reserved to_st)
    (HTTPException 409 "To location not FREE/RESERVED") >>
  set_status from_location_id "FREE" >>
  set_status to_location_id "OCCUPIED" >>
  let! from_loc := loc_get from_location_id in
  let! to_loc := loc_get to_location_id in
  ret (RespMove from_loc to_loc).

(** ** The interpreter of request sequences *)

Inductive Op :=
| OpHealth
| OpGetLocations (q : LocationQuery)
| OpReserve (res : Reservation)
| OpOccupy (location_id : string) (pallet_ref : option string)
| OpFree (location_id : string)
| OpMove (from_location_id to_location_id : string) (pallet_ref : option string).

Definition run_op (op : Op) : M Response :=
  match op with
  | OpHealth => health
  | OpGetLocations q => get_locations q
  | OpReserve res => reserve res
  | OpOccupy lid p => occupy lid p
  | OpFree lid => free lid
  | OpMove a b p => move a b p
  end.

(** The state a request leaves behind, whether it answers or raises. *)
Definition step (s : State) (op : Op) : State := (run_op op s).1.

Definition exec (ops : list Op) (s : State) : State := foldl step s ops.

(** ** Observations used in the statements *)

Definition status_of (lid : string) (s : State) : option string :=
  status <$> Dict.get lid (locations s).

Definition NotFound (e : Exn) : Prop := ∃ d, e = HTTPException 404 d.
Definition Conflict (e : Exn) : Prop := ∃ d, e = HTTPException 409 d.

Definition enum_status (v : string) : Prop :=
  v = "FREE" ∨ v = "OCCUPIED" ∨ v = "RESERVED" ∨ v = "BLOCKED" ∨ v = "MAINT".

Definition op_status (v : string) : Prop :=
  v = "FREE" ∨ v = "OCCUPIED" ∨ v = "RESERVED".

(** Every row of the catalogue carries one of the five statuses. *)
Definition statuses_valid (d : list (string * Location)) : Prop :=
  Forall (λ loc, enum_status (status loc)) (Dict.values d).

(** The verdict of [reserve]'s first loop on one id, read off the catalogue. *)
Definition check_id (d : list (string * Location)) (lid : string) : option Exn :=
  match Dict.get lid d with
  | None => Some (not_found lid)
  | Some loc => if String.eqb (status loc) "FREE" then None else Some (not_free lid)
  end.

(** The first failing id of a request decides the error. *)
Fixpoint first_violation (d : list (string * Location)) (ids : list string) : option Exn :=
  match ids with
  | [] => None
  | lid :: ids' =>
      match check_id d lid with
      | Some e => Some e
      | None => first_violation d ids'
      end
  end.

(** What one request may do to a catalogue: each key keeps its row, or
    keeps every field but [status], which becomes FREE, OCCUPIED or RESERVED. *)
Definition evolves (s s' : State) : Prop :=
  ∀ lid,
    Dict.get lid (locations s') = Dict.get lid (locations s)
    ∨ ∃ loc v, Dict.get lid (locations s) = Some loc
               ∧ op_status v
               ∧ Dict.get lid (locations s') = Some (with_status v loc).

(** Requests never add, drop or reorder keys, and keep valid statuses valid. *)
Definition shape_kept (s s' : State) : Prop :=
  Dict.keys (locations s') = Dict.keys (locations s)
  ∧ (statuses_valid (locations s) → statuses_valid (locations s')).

(** The rows that pass the eight guards of [get_locations]. *)
Definition kept (q : LocationQuery) (loc : Location) : Prop := skipped q loc = false.

#[global] Instance kept_dec q loc : Decision (kept q loc).
Proof. unfold kept. apply _. Defined.

(** The cap the scan loop really applies: it tests after appending. *)
Definition effective_limit (q : LocationQuery) : nat := Z.to_nat (Z.max 1 (limit q)).

(** A filter as [get_locations] applies it: an empty string or a zero is
    falsy in the guard's [if f and ...], so such a filter tests nothing. *)
Definition str_filter_holds (f : option string) (field : string) : Prop :=
  ∀ v, f = Some v → v ≠ "" → field = v.

Definition min_filter_holds (f : option Z) (field : Z) : Prop :=
  ∀ n, f = Some n → (n ≠ 0 ∨ 0 ≤ field)%Z → (n ≤ field)%Z.

Definition filters_hold (q : LocationQuery) (loc : Location) : Prop :=
  str_filter_holds (q_status q) (status loc)
  ∧ str_filter_holds (q_area_type q) (area_type loc)
  ∧ str_filter_holds (q_area_id q) (area_id loc)
  ∧ str_filter_holds (q_group_id q) (group_id loc)
  ∧ min_filter_holds (min_l q) (length_mm loc)
  ∧ min_filter_holds (min_w q) (width_mm loc)
  ∧ min_filter_holds (min_h q) (height_mm loc)
  ∧ min_filter_holds (min_weight q) (max_weight_kg loc).

(** How a request ended. *)
Definition succeeds {A} (x : State * (Exn + A)) : Prop := ∃ r, x.2 = inr r.
Definition fails_with {A} (P : Exn → Prop) (x : State * (Exn + A)) : Prop :=
  ∃ e, x.2 = inl e ∧ P e.

(** ** A small catalogue

    Five rows for the worked examples: L1 and L3 are FREE, L2 and L4
    OCCUPIED, L5 is BLOCKED; L3 and L4 form an oversize group. *)

Definition row (lid st gid : string) : Location :=
  {| loc_id := lid; area_id := "FLEX-02"; area_type := "FLEX";
     aisle := None; bay := None; level := None; position := None;
     length_mm := 1000; width_mm := 1000; height_mm := 2200; max_weight_kg := 2500;
     status := st; group_id := gid |}.

Definition sample_rows : list Location :=
  [ row "L1" "FREE" ""; row "L2" "OCCUPIED" "";
    row "L3" "FREE" "FLEX-02-OVR-01"; row "L4" "OCCUPIED" "FLEX-02-OVR-01";
    row "L5" "BLOCKED" "" ].

Definition sample : State := init_state sample_rows.

Definition hold (rid : string) (ids : list string) : Reservation :=
  {| res_id := rid; location_ids := ids; ref := None; from_ts := None;
     until_ts := None; res_status := "ACTIVE" |}.

Definition with_limit (n : Z) (q : LocationQuery) : LocationQuery :=
  {| q_status := q_status q; q_area_type := q_area_type q; q_area_id := q_area_id q;
     min_l := min_l q; min_w := min_w q; min_h := min_h q; min_weight := min_weight q;
     q_group_id := q_group_id q; limit := n |}.

Definition with_group_id (g : option string) (q : LocationQuery) : LocationQuery :=
  {| q_status := q_status q; q_area_type := q_area_type q; q_area_id := q_area_id q;
     min_l := min_l q; min_w := min_w q; min_h := min_h q; min_weight := min_weight q;
     q_group_id := g; limit := limit q |}.

(** A request sequence over the small catalogue; its second [occupy] raises. *)
Definition sample_ops : list Op :=
  [ OpReserve (hold "RES-1" ["L1"; "L3"]);
    OpOccupy "L1" None;
    OpMove "L2" "L3" None;
    OpFree "L5";
    OpOccupy "L4" None;
    OpGetLocations no_filter ].

(** An endpoint relates the state it is given to the state it leaves by [R]. *)
Definition preserves (R : State → State → Prop) {A} (m : M A) : Prop :=
  ∀ s, R s (m s).1.

(** The status changes one request can make to one location: the edges of
    the status machine, each tied to the endpoint that draws it. *)
Definition allowed_change (op : Op) (lid v v' : string) : Prop :=
  match op with
  | OpHealth | OpGetLocations _ => False
  | OpReserve res => lid ∈ location_ids res ∧ v = "FREE" ∧ v' = "RESERVED"
  | OpOccupy k _ => lid = k ∧ (v = "FREE" ∨ v = "RESERVED") ∧ v' = "OCCUPIED"
  | OpFree k => lid = k ∧ v' = "FREE"
  | OpMove a b _ =>
      (lid = a ∧ v = "OCCUPIED" ∧ v' = "FREE")
      ∨ (lid = b ∧ (v = "FREE" ∨ v = "RESERVED") ∧ v' = "OCCUPIED")
  end.

(** A query with every falsy filter (empty string, zero) dropped. *)
Definition drop_falsy_str (f : option string) : option string :=
  if truthy_str f then f else None.

Definition drop_falsy_int (f : option Z) : option Z :=
  if truthy_int f then f else None.

Definition drop_falsy (q : LocationQuery) : LocationQuery :=
  {| q_status := drop_falsy_str (q_status q);
     q_area_type := drop_falsy_str (q_area_type q);
     q_area_id := drop_falsy_str (q_area_id q);
     min_l := drop_falsy_int (min_l q);
     min_w := drop_falsy_int (min_w q);
     min_h := drop_falsy_int (min_h q);
     min_weight := drop_falsy_int (min_weight q);
     q_group_id := drop_falsy_str (q_group_id q);
     limit := limit q |}.

(** ** The dataset generator

    [load_locations] calls [_generate_fake_dataset] when no CSV file is
    present and reads back what it wrote.  The generator is modelled up to the
    rows it hands to the CSV writer, as the loader sees them again: integers
    survive the trip through text, and an absent coordinate ([None] in
    [main.py], the empty string in [Main.py]) comes back as [None] from
    [_to_int].  Strings are kept as their UTF-8 bytes.

    The random module is an oracle: [rnd area ix j] is the raw outcome of the
    [j]-th draw made for the row built at loop indices [ix] of [area], so
    every assignment of outcomes to draws is covered. *)

Definition Rng : Type := string → list nat → nat → nat.

(** [random.choice(seq)]: [seq[randbelow(len(seq))]]; an empty [seq] raises. *)
Definition random_choice {A} (r : nat) (xs : list A) : option A :=
  xs !! (r mod length xs).

(** [itertools.accumulate(weights)] *)
Fixpoint cum_weights (acc : nat) (ws : list nat) : list nat :=
  match ws with
  | [] => []
  | w :: ws' => (acc + w) :: cum_weights (acc + w) ws'
  end.

(** [random.choices(population, weights)[0]]: bisect the cumulative weights
    at a point below their total; mismatched lengths or a total of zero raise. *)
Definition random_choices {A} (r : nat) (population : list A) (weights : list nat)
  : option A :=
  if decide (length weights = length population ∧ (0 < sum_list weights)%nat) then
    population
      !! length (filter (λ c, (c ≤ r mod sum_list weights)%nat) (cum_weights 0 weights))
  else None.

Definition byte (z : Z) : string := String (Ascii.ascii_of_N (Z.to_N z)) "".

(** [chr(i)]: the one-character string of code point [i]; [None] stands for
    the [ValueError] outside [range(0x110000)]. *)
Definition chr (i : Z) : option string :=
  if ((i <? 0) || (1114111 <? i))%Z then None
  else if (i <? 128)%Z then Some (byte i)
  else if (i <? 2048)%Z then Some (byte (192 + i / 64) ++ byte (128 + i mod 64))
  else if (i <? 65536)%Z then
    Some (byte (224 + i / 4096) ++ byte (128 + (i / 64) mod 64) ++ byte (128 + i mod 64))
  else
    Some (byte (240 + i / 262144) ++ byte (128 + (i / 4096) mod 64)
          ++ byte (128 + (i / 64) mod 64) ++ byte (128 + i mod 64)).

(** [str(n)] and the format [{n:0Wd}] of a non-negative integer. *)
Definition str_int (n : nat) : string := NilZero.string_of_uint (Nat.to_uint n).

Definition fmt_0d (width n : nat) : string :=
  String.concat "" (replicate (width - String.length (str_int n)) "0") ++ str_int n.

(** [for x in xs: ...] over an accumulator, where the body may raise. *)
Fixpoint for_opt {A S} (xs : list A) (body : S → A → option S) (s : S) : option S :=
  match xs with
  | [] => Some s
  | x :: xs' => s' ← body s x; for_opt xs' body s'
  end.

Definition weighted_status (r : nat) (weights : list nat) : option string :=
  random_choices r ["FREE"; "OCCUPIED"; "RESERVED"; "BLOCKED"; "MAINT"] weights.

(** The rows that are built the same way in both files. *)
Definition flex1_row (rnd : Rng) (i : nat) : option Location :=
  st ← weighted_status (rnd "FLEX-01" [i] 0) [70; 20; 5; 3; 2];
  Some {| loc_id := "FLEX-01-G" ++ fmt_0d 3 i; area_id := "FLEX-01"; area_type := "FLEX";
          aisle := None; bay := None; level := None; position := None;
          length_mm := 1000; width_mm := 1000; height_mm := 2000; max_weight_kg := 2000;
          status := st; group_id := "" |}.

Definition flex2_row (rnd : Rng) (gid : string) (g s : nat) : option Location :=
  st ← weighted_status (rnd "FLEX-02" [g; s] 0) [60; 25; 7; 5; 3];
  Some {| loc_id := gid ++ "-S" ++ str_int s; area_id := "FLEX-02"; area_type := "FLEX";
          aisle := None; bay := None; level := None; position := None;
          length_mm := if decide (s = 1) then 2000 else 1000;
          width_mm := 1000; height_mm := 2200; max_weight_kg := 2500;
          status := st; group_id := gid |}.

Definition dock_row (rnd : Rng) (d : nat) : option Location :=
  st ← random_choice (rnd "DOCK" [d] 0) ["FREE"; "OCCUPIED"];
  Some {| loc_id := "DOCK-D" ++ fmt_0d 2 d; area_id := "DOCK"; area_type := "DOCK";
          aisle := None; bay := None; level := None; position := None;
          length_mm := 2500; width_mm := 2200; height_mm := 2500; max_weight_kg := 3000;
          status := st; group_id := "" |}.

Definition yard_row (rnd : Rng) (y : nat) : option Location :=
  st ← random_choice (rnd "YARD" [y] 0) ["FREE"; "OCCUPIED"; "RESERVED"];
  Some {| loc_id := "YARD-PAD-" ++ fmt_0d 2 y; area_id := "YARD"; area_type := "YARD";
          aisle := None; bay := None; level := None; position := None;
          length_mm := 3000; width_mm := 3000; height_mm := 0; max_weight_kg := 5000;
          status := st; group_id := "" |}.

(** A RACKED row, given its id. *)
Definition racked_row (rnd : Rng) (human_id area : string) (a b l p : nat)
  : option Location :=
  len ← random_choice (rnd area [a; b; l; p] 0) [1200; 1200; 1000]%Z;
  wid ← random_choice (rnd area [a; b; l; p] 1) [800; 1000]%Z;
  hei ← random_choice (rnd area [a; b; l; p] 2) [1500; 1600; 1700]%Z;
  wgt ← random_choice (rnd area [a; b; l; p] 3) [800; 1000; 1200; 1500]%Z;
  st ← weighted_status (rnd area [a; b; l; p] 4) [65; 25; 5; 3; 2];
  Some {| loc_id := human_id; area_id := area; area_type := "RACKED";
          aisle := Some (Z.of_nat a); bay := Some (Z.of_nat b);
          level := Some (Z.of_nat l); position := Some (Z.of_nat p);
          length_mm := len; width_mm := wid; height_mm := hei; max_weight_kg := wgt;
          status := st; group_id := "" |}.

(** The FLEX, DOCK and YARD loops, shared by both files. *)
Definition add_flex_dock_yard (rnd : Rng) (docks yard : nat) (rows : list Location)
  : option (list Location) :=
  rows ← for_opt (seq 1 100) (λ rows i,
            r ← flex1_row rnd i; Some (rows ++ [r])%list) rows;
  rows ← for_opt (seq 1 25) (λ rows g,
            let gid := "FLEX-02-OVR-" ++ fmt_0d 2 g in
            for_opt (seq 1 2) (λ rows s,
              r ← flex2_row rnd gid g s; Some (rows ++ [r])%list) rows) rows;
  rows ← for_opt (seq 1 docks) (λ rows d,
            r ← dock_row rnd d; Some (rows ++ [r])%list) rows;
  for_opt (seq 1 yard) (λ rows y,
    r ← yard_row rnd y; Some (rows ++ [r])%list) rows.

(** *** [main.py] *)

Module main_py.

Definition _aisle_letters (n : Z) : option string :=
  let n0 := (n - 1)%Z in
  let first := (n0 / 26)%Z in
  let second := (n0 mod 26)%Z in
  c1 ← chr (65 + first); c2 ← chr (65 + second); Some (c1 ++ c2).

Definition _level_letter (level : Z) : option string := chr (96 + level).

(** [f"W1{letters}-{b:02d}-{lvl}"] *)
Definition human_id (letters : string) (b : nat) (lvl : string) : string :=
  "W1" ++ letters ++ "-" ++ fmt_0d 2 b ++ "-" ++ lvl.

Definition add_racked (rnd : Rng) (area : string)
    (aisles bays_per_aisle levels positions_per_level : nat) (rows : list Location)
  : option (list Location) :=
  for_opt (seq 1 aisles) (λ rows a,
    letters ← _aisle_letters (Z.of_nat a);
    for_opt (seq 1 bays_per_aisle) (λ rows b,
      for_opt (seq 1 levels) (λ rows l,
        for_opt (seq 1 positions_per_level) (λ rows p,
          lvl ← _level_letter (Z.of_nat l);
          r ← racked_row rnd (human_id letters b lvl) area a b l p;
          Some (rows ++ [r])%list) rows) rows) rows) rows.

Definition _generate_fake_dataset (rnd : Rng) : option (list Location) :=
  rows ← add_racked rnd "RACK-01" 12 10 3 1 [];
  rows ← add_racked rnd "RACK-02" 10 10 3 1 rows;
  rows ← add_racked rnd "RACK-03" 8 10 3 1 rows;
  add_flex_dock_yard rnd 4 20 rows.

(** The ids the loops produce, in order. *)
Definition racked_ids (aisles bays_per_aisle levels positions_per_level : nat)
  : list string :=
  a ← seq 1 aisles;
  letters ← option_list (_aisle_letters (Z.of_nat a));
  b ← seq 1 bays_per_aisle;
  l ← seq 1 levels;
  p ← seq 1 positions_per_level;
  lvl ← option_list (_level_letter (Z.of_nat l));
  [human_id letters b lvl].

End main_py.

(** *** [Main.py] *)

Module Main_py.

(** [f"R-A{a:02d}-B{b:02d}-L{l:02d}-P{p:02d}-{area_id}"] *)
Definition row_id (area : string) (a b l p : nat) : string :=
  "R-A" ++ fmt_0d 2 a ++ "-B" ++ fmt_0d 2 b ++ "-L" ++ fmt_0d 2 l
  ++ "-P" ++ fmt_0d 2 p ++ "-" ++ area.

Definition add_racked (rnd : Rng) (area : string)
    (aisles bays levels positions : nat) (rows : list Location)
  : option (list Location) :=
  for_opt (seq 1 aisles) (λ rows a,
    for_opt (seq 1 bays) (λ rows b,
      for_opt (seq 1 levels) (λ rows l,
        for_opt (seq 1 positions) (λ rows p,
          r ← racked_row rnd (row_id area a b l p) area a b l p;
          Some (rows ++ [r])%list) rows) rows) rows) rows.

(** [count_racked], [count_flex1] and [count_flex2_groups] are accepted and
    never read; [docks] and [yard] bound the last two loops. *)
Definition _generate_fake_dataset (rnd : Rng) (docks yard : nat)
  : option (list Location) :=
  rows ← add_racked rnd "RACK-01" 12 10 3 1 [];
  rows ← add_racked rnd "RACK-02" 10 10 3 1 rows;
  rows ← add_racked rnd "RACK-03" 8 10 3 1 rows;
  add_flex_dock_yard rnd docks yard rows.

Definition racked_ids (area : string) (aisles bays levels positions : nat)
  : list string :=
  a ← seq 1 aisles;
  b ← seq 1 bays;
  l ← seq 1 levels;
  p ← seq 1 positions;
  [row_id area a b l p].

End Main_py.

(** The ids of the FLEX, DOCK and YARD rows. *)
Definition flex_dock_yard_ids (docks yard : nat) : list string :=
  app (i ← seq 1 100; ["FLEX-01-G" ++ fmt_0d 3 i])
    (app (g ← seq 1 25; s ← seq 1 2;
          [("FLEX-02-OVR-" ++ fmt_0d 2 g) ++ "-S" ++ str_int s])
       (app (d ← seq 1 docks; ["DOCK-D" ++ fmt_0d 2 d])
          (y ← seq 1 yard; ["YARD-PAD-" ++ fmt_0d 2 y]))).

(** The ids of a whole generated dataset, in row order. *)
Definition main_py_ids : list string :=
  app (main_py.racked_ids 12 10 3 1)
    (app (main_py.racked_ids 10 10 3 1)
       (app (main_py.racked_ids 8 10 3 1) (flex_dock_yard_ids 4 20))).

Definition Main_py_ids (docks yard : nat) : list string :=
  app (Main_py.racked_ids "RACK-01" 12 10 3 1)
    (app (Main_py.racked_ids "RACK-02" 10 10 3 1)
       (app (Main_py.racked_ids "RACK-03" 8 10 3 1) (flex_dock_yard_ids docks yard))).

(** The decimal digit [d] as a character, and a test on a string's first. *)
Definition digit (d : nat) : Ascii.ascii := Ascii.ascii_of_nat (48 + d).

Definition starts_with (c : Ascii.ascii) (s : string) : bool :=
  match s with
  | String c' _ => Ascii.eqb c c'
  | EmptyString => false
  end.

(** The first characters of the two RACKED id formats. *)
Definition char_W : Ascii.ascii := Ascii.ascii_of_nat 87.
Definition char_R : Ascii.ascii := Ascii.ascii_of_nat 82.

(** What every generated row satisfies. *)
Definition generated_row_ok (r : Location) : Prop :=
  enum_status (status r)
  ∧ area_type r ∈ ["RACKED"; "FLEX"; "DOCK"; "YARD"]
  ∧ (0 ≤ length_mm r ∧ 0 ≤ width_mm r ∧ 0 ≤ height_mm r ∧ 0 ≤ max_weight_kg r)%Z.

(** A loop body that appends rows with the given ids, all satisfying [P]. *)
Definition appends (ids : list string) (P : Location → Prop)
    (m : list Location → option (list Location)) : Prop :=
  ∀ rows, ∃ new, m rows = Some (rows ++ new)%list
                 ∧ loc_id <$> new = ids ∧ Forall P new.

(** ** Dictionary facts *)

Module DictFacts.
Section Facts.
Context {V : Type}.
Implicit Types (k : string) (v : V) (d : list (string * V)).

Lemma mem_get k d : Dict.mem k d = true ↔ is_Some (Dict.get k d).
Proof.
  unfold Dict.mem. destruct (Dict.get k d); split; intros H; eauto.
  - discriminate.
  - destruct H; discriminate.
Qed.

Lemma mem_false k d : Dict.mem k d = false ↔ Dict.get k d = None.
Proof. unfold Dict.mem. destruct (Dict.get k d); split; congruence. Qed.

Lemma get_set_eq k v d : Dict.get k (Dict.set k v d) = Some v.
Proof.
  induction d as [|[k' v'] d IH]; simpl.
  - by rewrite String.eqb_refl.
  - destruct (String.eqb k k') eqn:E; simpl.
    + by rewrite String.eqb_refl.
    + by rewrite E.
Qed.

Lemma get_set_ne k k' v d : k ≠ k' → Dict.get k' (Dict.set k v d) = Dict.get k' d.
Proof.
  intros Hne. induction d as [|[k0 v0] d IH]; simpl.
  - destruct (String.eqb k' k) eqn:E; [|done].
    apply String.eqb_eq in E. congruence.
  - destruct (String.eqb k k0) eqn:E; simpl.
    + apply String.eqb_eq in E. subst k0.
      destruct (String.eqb k' k) eqn:E'; [|done].
      apply String.eqb_eq in E'. congruence.
    + by rewrite IH.
Qed.

Lemma get_set k k' v d :
  Dict.get k' (Dict.set k v d) = if decide (k = k') then Some v else Dict.get k' d.
Proof.
  case_decide as H; [subst; apply get_set_eq | by apply get_set_ne].
Qed.

Lemma set_set k v w d : Dict.set k v (Dict.set k w d) = Dict.set k v d.
Proof.
  induction d as [|[k' v'] d IH]; simpl.
  - by rewrite String.eqb_refl.
  - destruct (String.eqb k k') eqn:E; simpl.
    + by rewrite String.eqb_refl.
    + by rewrite E, IH.
Qed.

(** Assigning to a key that is present keeps the key order. *)
Lemma keys_set_present k v d :
  is_Some (Dict.get k d) → Dict.keys (Dict.set k v d) = Dict.keys d.
Proof.
  unfold Dict.keys. induction d as [|[k' v'] d IH]; simpl; intros [x Hx].
  - discriminate.
  - destruct (String.eqb k k') eqn:E; simpl.
    + apply String.eqb_eq in E. by subst.
    + f_equal. apply IH. eauto.
Qed.

Lemma length_set_present k v d :
  is_Some (Dict.get k d) → length (Dict.set k v d) = length d.
Proof.
  intros H. apply keys_set_present with (v := v) in H.
  unfold Dict.keys in H. apply (f_equal length) in H.
  by rewrite !length_map in H.
Qed.

Lemma values_set_Forall (P : V → Prop) k v d :
  P v → Forall P (Dict.values d) → Forall P (Dict.values (Dict.set k v d)).
Proof.
  intros Hv. unfold Dict.values.
  induction d as [|[k' v'] d IH]; simpl; intros Hd.
  - by constructor.
  - inversion Hd; subst.
    destruct (String.eqb k k'); simpl; constructor; auto.
Qed.

Lemma get_None_keys k d : Dict.get k d = None ↔ k ∉ Dict.keys d.
Proof.
  unfold Dict.keys. induction d as [|[k' v'] d IH]; simpl.
  - split; [intros _ H; by apply elem_of_nil in H | done].
  - destruct (String.eqb k k') eqn:E.
    + apply String.eqb_eq in E. subst k'. split; [discriminate|].
      intros H. exfalso. apply H, list_elem_of_here.
    + apply String.eqb_neq in E. rewrite IH, not_elem_of_cons. tauto.
Qed.

(** A dictionary never holds a key twice. *)
Lemma keys_set_NoDup k v d : NoDup (Dict.keys d) → NoDup (Dict.keys (Dict.set k v d)).
Proof.
  unfold Dict.keys. induction d as [|[k' v'] d IH]; simpl; intros Hnd.
  - apply NoDup_singleton.
  - apply NoDup_cons in Hnd as [Hk' Hnd].
    destruct (String.eqb k k') eqn:E; simpl.
    + apply String.eqb_eq in E. subst k'. by apply NoDup_cons.
    + apply String.eqb_neq in E. apply NoDup_cons. split; [|auto].
      intros Hin. apply (proj2 (get_None_keys k' d)) in Hk'.
      rewrite <- (get_set_ne k k' v d E) in Hk'.
      by apply get_None_keys in Hk'.
Qed.

(** With no key held twice, every stored pair is what its key looks up. *)
Lemma elem_of_get k v d : NoDup (Dict.keys d) → (k, v) ∈ d → Dict.get k d = Some v.
Proof.
  unfold Dict.keys. induction d as [|[k' v'] d IH]; simpl; intros Hnd Hin.
  - by apply elem_of_nil in Hin.
  - apply NoDup_cons in Hnd as [Hk' Hnd].
    apply elem_of_cons in Hin as [[= <- <-]|Hin].
    + by rewrite String.eqb_refl.
    + destruct (String.eqb k k') eqn:E; [|auto].
      apply String.eqb_eq in E. subst k'. exfalso. apply Hk'.
      apply list_elem_of_fmap. by exists (k, v).
Qed.

Lemma get_values k v d : Dict.get k d = Some v → v ∈ Dict.values d.
Proof.
  unfold Dict.values. induction d as [|[k' v'] d IH]; simpl; [done|].
  destruct (String.eqb k k').
  - intros [= ->]. apply list_elem_of_here.
  - intros H. apply list_elem_of_further. auto.
Qed.
End Facts.
End DictFacts.

(** ** Rows and statuses *)

Lemma with_status_status v loc : status (with_status v loc) = v.
Proof. reflexivity. Qed.

Lemma with_status_twice v w loc : with_status v (with_status w loc) = with_status v loc.
Proof. reflexivity. Qed.

Lemma with_status_same loc : with_status (status loc) loc = loc.
Proof. by destruct loc. Qed.

Lemma op_status_enum v : op_status v → enum_status v.
Proof. unfold op_status, enum_status. tauto. Qed.

Lemma state_eq s s' :
  locations s = locations s' → reservations s = reservations s' → s = s'.
Proof. destruct s, s'; simpl; congruence. Qed.

(** ** The first loop of [reserve] *)

Lemma reserve_check_run lid s :
  reserve_check lid s
  = (s, match check_id (locations s) lid with Some e => inl e | None => inr tt end).
Proof.
  unfold reserve_check, check_id, bind, loc_in, loc_status, loc_get, raise_if, Dict.mem, bind.
  destruct (Dict.get lid (locations s)) as [loc|] eqn:E; simpl; rewrite ?E; simpl; [|done].
  by destruct (String.eqb (status loc) "FREE").
Qed.

(** The validation pass reads the catalogue and never writes it. *)
Lemma validation_run ids s :
  for_each ids reserve_check s
  = (s, match first_violation (locations s) ids with Some e => inl e | None => inr tt end).
Proof.
  induction ids as [|lid ids IH]; simpl; [done|].
  unfold bind. rewrite reserve_check_run.
  destruct (check_id (locations s) lid); [done|]. apply IH.
Qed.

Lemma check_id_None d lid :
  check_id d lid = None ↔ ∃ loc, Dict.get lid d = Some loc ∧ status loc = "FREE".
Proof.
  unfold check_id. destruct (Dict.get lid d) as [loc|].
  - destruct (String.eqb (status loc) "FREE") eqn:E; split.
    + intros _. apply String.eqb_eq in E. eauto.
    + done.
    + discriminate.
    + intros (loc' & [= <-] & H). apply String.eqb_neq in E. done.
  - split; [discriminate|]. by intros (? & ? & _).
Qed.

Lemma check_id_error d lid e :
  check_id d lid = Some e → NotFound e ∨ Conflict e.
Proof.
  unfold check_id, NotFound, Conflict, not_found, not_free.
  destruct (Dict.get lid d) as [loc|].
  - destruct (String.eqb (status loc) "FREE"); [discriminate|].
    intros [= <-]. right. eauto.
  - intros [= <-]. left. eauto.
Qed.

Lemma first_violation_None d ids :
  first_violation d ids = None
  ↔ ∀ lid, lid ∈ ids → ∃ loc, Dict.get lid d = Some loc ∧ status loc = "FREE".
Proof.
  induction ids as [|lid ids IH]; simpl.
  - split; [|done]. intros _ lid H. by apply elem_of_nil in H.
  - destruct (check_id d lid) eqn:E.
    + split; [discriminate|]. intros H.
      assert (check_id d lid = None); [|congruence].
      apply check_id_None, H, list_elem_of_here.
    + rewrite IH. split.
      * intros H k [->|Hk]%elem_of_cons; [by apply check_id_None | auto].
      * intros H k Hk. apply H. by apply list_elem_of_further.
Qed.

Lemma first_violation_error d ids e :
  first_violation d ids = Some e → NotFound e ∨ Conflict e.
Proof.
  induction ids as [|lid ids IH]; simpl; [discriminate|].
  destruct (check_id d lid) eqn:E; [|done].
  intros [= <-]. eauto using check_id_error.
Qed.

(** The verdict is that of the first id, in list order, that fails a test. *)
Lemma first_violation_app d pre lid post :
  first_violation d pre = None →
  first_violation d (pre ++ lid :: post)
  = match check_id d lid with Some e => Some e | None => first_violation d post end.
Proof.
  induction pre as [|k pre IH]; simpl; [done|].
  destruct (check_id d k); [discriminate|]. apply IH.
Qed.

(** ** The second loop of [reserve] *)

Lemma set_status_run lid v loc s :
  Dict.get lid (locations s) = Some loc →
  set_status lid v s
  = ({| locations := Dict.set lid (with_status v loc) (locations s);
        reservations := reservations s |}, inr tt).
Proof. intros H. unfold set_status. by rewrite H. Qed.

Lemma marking_run ids s :
  (∀ lid, lid ∈ ids → is_Some (Dict.get lid (locations s))) →
  ∃ s', for_each ids (λ lid, set_status lid "RESERVED") s = (s', inr tt)
        ∧ reservations s' = reservations s
        ∧ Dict.keys (locations s') = Dict.keys (locations s)
        ∧ ∀ k, Dict.get k (locations s')
               = if decide (k ∈ ids)
                 then with_status "RESERVED" <$> Dict.get k (locations s)
                 else Dict.get k (locations s).
Proof.
  revert s. induction ids as [|lid ids IH]; intros s Hin; simpl.
  - exists s. do 3 (split; [done|]).
    done.
  - destruct (Hin lid) as [loc Hloc]; [apply list_elem_of_here|].
    unfold bind at 1. rewrite (set_status_run _ _ _ _ Hloc).
    set (s1 := {| locations := _; reservations := _ |}).
    destruct (IH s1) as (s' & Hrun & Hres & Hkeys & Hget).
    { intros k Hk. simpl. rewrite DictFacts.get_set.
      case_decide; [eauto | apply Hin; by apply list_elem_of_further]. }
    exists s'. split; [done|]. split; [done|]. split.
    { rewrite Hkeys. simpl. apply DictFacts.keys_set_present. eauto. }
    intros k. rewrite Hget. simpl. rewrite DictFacts.get_set.
    destruct (decide (k ∈ ids)) as [Hk|Hk];
      destruct (decide (k ∈ lid :: ids)) as [Hk'|Hk'];
      destruct (decide (lid = k)) as [<-|Hne];
      rewrite ?Hloc; try done; exfalso;
      first [ apply Hk'; by auto using list_elem_of_here, list_elem_of_further
            | apply elem_of_cons in Hk' as [->|?]; done ].
Qed.

(** ** The single-location endpoints *)

Ltac unfold_endpoint :=
  unfold bind, ret, raise, raise_if, loc_in, loc_status, loc_get, set_status, Dict.mem,
    bind, ret.

(** Evaluate an endpoint body once the lookups it makes are known. *)
Ltac run_endpoint :=
  unfold_endpoint; simpl;
  repeat (rewrite ?DictFacts.get_set_eq;
          match goal with
          | H : Dict.get ?k ?d = _ |- context [Dict.get ?k ?d] => rewrite H; simpl
          | H : String.eqb ?a ?b = _ |- context [String.eqb ?a ?b] => rewrite H; simpl
          | H : not_free_or_reserved ?a = _ |- context [not_free_or_reserved ?a] =>
              rewrite H; simpl
          end);
  rewrite ?DictFacts.get_set_eq; simpl.

Lemma not_free_or_reserved_false st :
  not_free_or_reserved st = false ↔ st = "FREE" ∨ st = "RESERVED".
Proof.
  unfold not_free_or_reserved. rewrite negb_false_iff, orb_true_iff.
  by rewrite !String.eqb_eq.
Qed.

Lemma not_free_or_reserved_true st :
  not_free_or_reserved st = true ↔ st ≠ "FREE" ∧ st ≠ "RESERVED".
Proof.
  unfold not_free_or_reserved. rewrite negb_true_iff, orb_false_iff.
  by rewrite !String.eqb_neq.
Qed.

Lemma occupy_missing lid p s :
  Dict.get lid (locations s) = None →
  occupy lid p s = (s, inl (HTTPException 404 "Location not found")).
Proof. intros H. unfold occupy. by run_endpoint. Qed.

Lemma occupy_refused lid p loc s :
  Dict.get lid (locations s) = Some loc →
  not_free_or_reserved (status loc) = true →
  occupy lid p s = (s, inl (HTTPException 409 "Location not FREE/RESERVED")).
Proof. intros H1 H2. unfold occupy. by run_endpoint. Qed.

Lemma occupy_done lid p loc s :
  Dict.get lid (locations s) = Some loc →
  not_free_or_reserved (status loc) = false →
  occupy lid p s
  = ({| locations := Dict.set lid (with_status "OCCUPIED" loc) (locations s);
        reservations := reservations s |},
     inr (RespLocation (with_status "OCCUPIED" loc))).
Proof. intros H1 H2. unfold occupy. by run_endpoint. Qed.

Lemma free_missing lid s :
  Dict.get lid (locations s) = None →
  free lid s = (s, inl (HTTPException 404 "Location not found")).
Proof. intros H. unfold free. by run_endpoint. Qed.

Lemma free_done lid loc s :
  Dict.get lid (locations s) = Some loc →
  free lid s
  = ({| locations := Dict.set lid (with_status "FREE" loc) (locations s);
        reservations := reservations s |},
     inr (RespLocation (with_status "FREE" loc))).
Proof. intros H. unfold free. by run_endpoint. Qed.

(** ** [move] *)

Lemma move_missing a b p s :
  Dict.get a (locations s) = None ∨ Dict.get b (locations s) = None →
  move a b p s = (s, inl (HTTPException 404 "Location not found")).
Proof.
  intros H. unfold move. unfold_endpoint. simpl.
  destruct (Dict.get a (locations s)), (Dict.get b (locations s)); simpl; try done.
  by destruct H.
Qed.

Lemma move_from_refused a b p la lb s :
  Dict.get a (locations s) = Some la →
  Dict.get b (locations s) = Some lb →
  status la ≠ "OCCUPIED" →
  move a b p s = (s, inl (HTTPException 409 "From location not OCCUPIED")).
Proof.
  intros Ha Hb Hst%String.eqb_neq. unfold move. by run_endpoint.
Qed.

Lemma move_to_refused a b p la lb s :
  Dict.get a (locations s) = Some la →
  Dict.get b (locations s) = Some lb →
  status la = "OCCUPIED" →
  not_free_or_reserved (status lb) = true →
  move a b p s = (s, inl (HTTPException 409 "To location not FREE/RESERVED")).
Proof.
  intros Ha Hb Hst%String.eqb_eq Hto. unfold move. by run_endpoint.
Qed.

(** A move that passes its guards has distinct endpoints. *)
Lemma move_guards_distinct a b la lb (d : list (string * Location)) :
  Dict.get a d = Some la →
  Dict.get b d = Some lb →
  status la = "OCCUPIED" →
  not_free_or_reserved (status lb) = false →
  a ≠ b.
Proof.
  intros Ha Hb Hst Hto ->. rewrite Ha in Hb. injection Hb as ->.
  apply not_free_or_reserved_false in Hto. rewrite Hst in Hto.
  by destruct Hto.
Qed.

Lemma move_done a b p la lb s :
  Dict.get a (locations s) = Some la →
  Dict.get b (locations s) = Some lb →
  status la = "OCCUPIED" →
  not_free_or_reserved (status lb) = false →
  move a b p s
  = ({| locations :=
          Dict.set b (with_status "OCCUPIED" lb)
            (Dict.set a (with_status "FREE" la) (locations s));
        reservations := reservations s |},
     inr (RespMove (with_status "FREE" la) (with_status "OCCUPIED" lb))).
Proof.
  intros Ha Hb Hst Hto.
  pose proof (move_guards_distinct _ _ _ _ _ Ha Hb Hst Hto) as Hne.
  apply String.eqb_eq in Hst.
  unfold move. run_endpoint.
  rewrite (DictFacts.get_set_ne a b); [|done]. rewrite Hb. simpl.
  rewrite (DictFacts.get_set_ne b a); [|done].
  rewrite DictFacts.get_set_eq. simpl.
  by rewrite DictFacts.get_set_eq.
Qed.

(** ** Relations every request respects

    A relation that is a preorder, holds across one status assignment with
    a value among FREE, OCCUPIED and RESERVED, and ignores the ledger, holds
    between the states before and after any endpoint, and so across any
    sequence of requests. *)

Section Preservation.
Variable R : State → State → Prop.
Hypothesis R_refl : ∀ s, R s s.
Hypothesis R_trans : ∀ s1 s2 s3, R s1 s2 → R s2 s3 → R s1 s3.
Hypothesis R_set : ∀ lid v loc s,
  op_status v →
  Dict.get lid (locations s) = Some loc →
  R s {| locations := Dict.set lid (with_status v loc) (locations s);
         reservations := reservations s |}.
Hypothesis R_ledger : ∀ s rs,
  R s {| locations := locations s; reservations := rs |}.

Lemma preserves_ret {A} (a : A) : preserves R (ret a).
Proof. intros s. apply R_refl. Qed.

Lemma preserves_raise {A} e : preserves R (@raise A e).
Proof. intros s. apply R_refl. Qed.

Lemma preserves_bind {A B} (m : M A) (k : A → M B) :
  preserves R m → (∀ a, preserves R (k a)) → preserves R (bind m k).
Proof.
  intros Hm Hk s. unfold bind. specialize (Hm s).
  destruct (m s) as [s' [e|a]]; simpl in *; [done|].
  eapply R_trans; [exact Hm | apply Hk].
Qed.

Lemma preserves_raise_if c e : preserves R (raise_if c e).
Proof. destruct c; [apply preserves_raise | apply preserves_ret]. Qed.

Lemma preserves_for_each {A} (xs : list A) (body : A → M unit) :
  (∀ x, preserves R (body x)) → preserves R (for_each xs body).
Proof.
  intros Hbody. induction xs as [|x xs IH]; simpl.
  - apply preserves_ret.
  - apply preserves_bind; auto.
Qed.

Lemma preserves_loc_in lid : preserves R (loc_in lid).
Proof. intros s. apply R_refl. Qed.

Lemma preserves_loc_get lid : preserves R (loc_get lid).
Proof.
  intros s. unfold loc_get. destruct (Dict.get lid (locations s)); apply R_refl.
Qed.

Lemma preserves_loc_status lid : preserves R (loc_status lid).
Proof.
  apply preserves_bind; [apply preserves_loc_get | intros; apply preserves_ret].
Qed.

Lemma preserves_set_status lid v : op_status v → preserves R (set_status lid v).
Proof.
  intros Hv s. unfold set_status.
  destruct (Dict.get lid (locations s)) eqn:E; simpl; [by apply R_set | apply R_refl].
Qed.

Lemma preserves_res_put rid d : preserves R (res_put rid d).
Proof. intros s. apply R_ledger. Qed.

Lemma preserves_res_get rid : preserves R (res_get rid).
Proof.
  intros s. unfold res_get. destruct (reservations s !! rid); apply R_refl.
Qed.

Ltac preserves_step :=
  first
    [ apply preserves_bind; [|intros]
    | apply preserves_for_each; intros
    | apply preserves_raise_if
    | apply preserves_loc_in
    | apply preserves_loc_status
    | apply preserves_loc_get
    | apply preserves_res_put
    | apply preserves_res_get
    | apply preserves_ret
    | apply preserves_set_status; unfold op_status; tauto ].

Lemma preserves_reserve res : preserves R (reserve res).
Proof. unfold reserve, reserve_check. repeat preserves_step. Qed.

Lemma preserves_occupy lid p : preserves R (occupy lid p).
Proof. unfold occupy. repeat preserves_step. Qed.

Lemma preserves_free lid : preserves R (free lid).
Proof. unfold free. repeat preserves_step. Qed.

Lemma preserves_move a b p : preserves R (move a b p).
Proof. unfold move. repeat preserves_step. Qed.

Lemma preserves_get_locations q : preserves R (get_locations q).
Proof. intros s. apply R_refl. Qed.

Lemma preserves_health : preserves R health.
Proof. intros s. apply R_refl. Qed.

Lemma preserves_run_op op : preserves R (run_op op).
Proof.
  destruct op; simpl;
    auto using preserves_health, preserves_get_locations, preserves_reserve,
      preserves_occupy, preserves_free, preserves_move.
Qed.

Lemma step_related s op : R s (step s op).
Proof. apply preserves_run_op. Qed.

Lemma exec_related ops s : R s (exec ops s).
Proof.
  revert s. induction ops as [|op ops IH]; intros s; simpl.
  - apply R_refl.
  - eapply R_trans; [apply step_related | apply IH].
Qed.

End Preservation.

(** *** Instances *)

Lemma evolves_refl s : evolves s s.
Proof. intros lid. by left. Qed.

Lemma evolves_trans s1 s2 s3 : evolves s1 s2 → evolves s2 s3 → evolves s1 s3.
Proof.
  intros H12 H23 lid.
  destruct (H23 lid) as [E23 | (loc2 & v2 & G2 & Hv2 & E3)].
  - rewrite E23. apply H12.
  - destruct (H12 lid) as [E12 | (loc1 & v1 & G1 & Hv1 & E2)].
    + right. exists loc2, v2. by rewrite <- E12.
    + right. exists loc1, v2. rewrite E2 in G2. injection G2 as <-.
      by rewrite with_status_twice in E3.
Qed.

Lemma evolves_set lid v loc s :
  op_status v →
  Dict.get lid (locations s) = Some loc →
  evolves s {| locations := Dict.set lid (with_status v loc) (locations s);
               reservations := reservations s |}.
Proof.
  intros Hv Hloc k. simpl. rewrite DictFacts.get_set.
  case_decide as E; [subst k; right; eauto | by left].
Qed.

Lemma evolves_ledger s rs :
  evolves s {| locations := locations s; reservations := rs |}.
Proof. intros lid. by left. Qed.

Lemma shape_kept_refl s : shape_kept s s.
Proof. by split. Qed.

Lemma shape_kept_trans s1 s2 s3 :
  shape_kept s1 s2 → shape_kept s2 s3 → shape_kept s1 s3.
Proof. intros [K12 V12] [K23 V23]. split; [congruence | auto]. Qed.

Lemma shape_kept_set lid v loc s :
  op_status v →
  Dict.get lid (locations s) = Some loc →
  shape_kept s {| locations := Dict.set lid (with_status v loc) (locations s);
                  reservations := reservations s |}.
Proof.
  intros Hv Hloc. split; simpl.
  - apply DictFacts.keys_set_present. eauto.
  - unfold statuses_valid.
    apply (DictFacts.values_set_Forall (λ l, enum_status (status l))).
    simpl. by apply op_status_enum.
Qed.

Lemma shape_kept_ledger s rs :
  shape_kept s {| locations := locations s; reservations := rs |}.
Proof. by split. Qed.

(** ** The loader *)

Lemma load_locations_valid rows :
  Forall (λ r, enum_status (status r)) rows → statuses_valid (load_locations rows).
Proof.
  unfold load_locations, statuses_valid.
  assert (∀ d, Forall (λ l, enum_status (status l)) (Dict.values d) →
               Forall (λ r, enum_status (status r)) rows →
               Forall (λ l, enum_status (status l))
                 (Dict.values (foldl (λ d r, Dict.set (loc_id r) r d) d rows))) as H.
  { induction rows as [|r rows IH]; intros d Hd Hrows; simpl; [done|].
    inversion Hrows; subst. apply IH; [|done].
    by apply (DictFacts.values_set_Forall (λ l, enum_status (status l))). }
  apply H. constructor.
Qed.

Lemma load_locations_NoDup rows : NoDup (Dict.keys (load_locations rows)).
Proof.
  unfold load_locations.
  assert (∀ d : list (string * Location), NoDup (Dict.keys d) →
            NoDup (Dict.keys (foldl (λ d r, Dict.set (loc_id r) r d) d rows))) as H.
  { induction rows as [|r rows IH]; intros d Hd; simpl; [done|].
    by apply IH, DictFacts.keys_set_NoDup. }
  apply H. constructor.
Qed.

(** ** The scan of [get_locations] *)

Lemma effective_limit_pos q : 0 < effective_limit q.
Proof. unfold effective_limit. lia. Qed.

Lemma effective_limit_ge_1 q : (1 ≤ limit q)%Z → Z.of_nat (effective_limit q) = limit q.
Proof. unfold effective_limit. lia. Qed.

(** The loop returns the first [effective_limit] rows that pass the guards:
    the [break] test runs after the append, so one row is always let in. *)
Lemma scan_take q locs results :
  length results < effective_limit q →
  scan q locs results
  = (results ++ take (effective_limit q - length results) (filter (kept q) locs))%list.
Proof.
  revert results.
  induction locs as [|loc locs IH]; intros results Hlen; simpl.
  - by rewrite filter_nil, take_nil, app_nil_r.
  - destruct (skipped q loc) eqn:Hskip.
    + rewrite filter_cons_False; [by apply IH|].
      unfold kept. congruence.
    + rewrite filter_cons_True; [|done].
      rewrite length_app. simpl.
      destruct (effective_limit q - length results) as [|n] eqn:Hn; [lia|].
      simpl. destruct (limit q <=? Z.of_nat (length results + 1))%Z eqn:Hbreak.
      * apply Z.leb_le in Hbreak.
        assert (n = 0) as -> by (unfold effective_limit in *; lia).
        by rewrite take_0.
      * apply Z.leb_gt in Hbreak.
        rewrite IH; rewrite length_app; simpl.
        -- rewrite <- app_assoc. simpl.
           by replace (effective_limit q - (length results + 1)) with n by lia.
        -- unfold effective_limit in *. lia.
Qed.

Lemma get_locations_run q s :
  let items := take (effective_limit q) (filter (kept q) (Dict.values (locations s))) in
  get_locations q s = (s, inr (RespLocations (length items) items)).
Proof.
  simpl. unfold get_locations.
  rewrite scan_take by (simpl; apply effective_limit_pos).
  simpl. by rewrite Nat.sub_0_r.
Qed.

Lemma skip_ne_false f field :
  skip_ne f field = false ↔ ∀ v, f = Some v → v ≠ "" → field = v.
Proof.
  unfold skip_ne, truthy_str. destruct f as [v|]; simpl.
  - destruct (String.eqb v "") eqn:E1; simpl.
    + apply String.eqb_eq in E1. split; [|done]. by intros _ ? [= <-] ?.
    + apply String.eqb_neq in E1. rewrite negb_false_iff, String.eqb_eq.
      split; [by intros -> ? [= <-] | eauto].
  - split; [by intros _ ? ? | done].
Qed.

Lemma skip_lt_false f field :
  skip_lt f field = false ↔ ∀ n, f = Some n → n ≠ 0%Z → (n ≤ field)%Z.
Proof.
  unfold skip_lt, truthy_int. destruct f as [n|]; simpl.
  - destruct (n =? 0)%Z eqn:E1; simpl.
    + apply Z.eqb_eq in E1. split; [|done]. by intros _ ? [= <-] ?.
    + apply Z.eqb_neq in E1. rewrite Z.ltb_ge.
      split; [by intros ? ? [= <-] | eauto].
  - split; [by intros _ ? ? | done].
Qed.

Lemma kept_iff q loc :
  kept q loc ↔
    skip_ne (q_status q) (status loc) = false
    ∧ skip_ne (q_area_type q) (area_type loc) = false
    ∧ skip_ne (q_area_id q) (area_id loc) = false
    ∧ skip_ne (q_group_id q) (group_id loc) = false
    ∧ skip_lt (min_l q) (length_mm loc) = false
    ∧ skip_lt (min_w q) (width_mm loc) = false
    ∧ skip_lt (min_h q) (height_mm loc) = false
    ∧ skip_lt (min_weight q) (max_weight_kg loc) = false.
Proof.
  unfold kept, skipped. rewrite !orb_false_iff. tauto.
Qed.

(** ** [reserve] *)

Lemma sample_lookup :
  Dict.get "L1" (locations sample) = Some (row "L1" "FREE" "")
  ∧ Dict.get "L2" (locations sample) = Some (row "L2" "OCCUPIED" "")
  ∧ Dict.get "L3" (locations sample) = Some (row "L3" "FREE" "FLEX-02-OVR-01")
  ∧ Dict.get "L9" (locations sample) = None.
Proof. by repeat split. Qed.

(** C1. [reserve] is all-or-nothing: when some id of the request is missing
    from the catalogue, or names a location whose status is not FREE, the
    call raises NotFound (404) or Conflict (409) and leaves the whole state
    as it was: no status is changed and the ledger holds what it held. *)
Theorem reserve_all_or_nothing (res : Reservation) (s : State) :
  (∃ lid, lid ∈ location_ids res
          ∧ (Dict.get lid (locations s) = None
             ∨ ∃ loc, Dict.get lid (locations s) = Some loc ∧ status loc ≠ "FREE")) →
  ∃ e, reserve res s = (s, inl e) ∧ (NotFound e ∨ Conflict e).
Proof.
  intros (lid & Hin & Hbad).
  unfold reserve. unfold bind at 1. rewrite validation_run.
  destruct (first_violation (locations s) (location_ids res)) as [e|] eqn:E.
  - exists e. split; [done|]. eauto using first_violation_error.
  - exfalso.
    destruct (proj1 (first_violation_None _ _) E lid Hin) as (loc & Hloc & Hfree).
    destruct Hbad as [Hnone | (loc' & Hloc' & Hst)]; congruence.
Qed.

Lemma reserve_all_or_nothing_witness :
  ∃ e, reserve (hold "RES-1" ["L3"; "L4"]) sample = (sample, inl e)
       ∧ (NotFound e ∨ Conflict e).
Proof.
  apply (reserve_all_or_nothing (hold "RES-1" ["L3"; "L4"]) sample).
  exists "L4". split.
  - simpl. apply list_elem_of_further, list_elem_of_here.
  - right. exists (row "L4" "OCCUPIED" "FLEX-02-OVR-01"). split; [reflexivity | discriminate].
Defined.

(** C2. When every id of the request exists and is FREE, [reserve] answers
    with the reservation, every referenced location is RESERVED afterwards and
    every other row is untouched, and the ledger is the old one with the
    request stored under its id (replacing an entry of the same id); the
    stored record lists exactly the ids given, in the order given. *)
Theorem reserve_success (res : Reservation) (s : State) :
  (∀ lid, lid ∈ location_ids res →
          ∃ loc, Dict.get lid (locations s) = Some loc ∧ status loc = "FREE") →
  ∃ s', reserve res s = (s', inr (RespReservation res))
        ∧ (∀ lid, lid ∈ location_ids res → status_of lid s' = Some "RESERVED")
        ∧ (∀ lid, lid ∉ location_ids res →
                  Dict.get lid (locations s') = Dict.get lid (locations s))
        ∧ reservations s' = <[res_id res := res]> (reservations s)
        ∧ ∃ r, reservations s' !! res_id res = Some r
               ∧ location_ids r = location_ids res.
Proof.
  intros Hall.
  destruct (marking_run (location_ids res) s) as (s1 & Hrun & Hres & _ & Hget).
  { intros lid Hin. destruct (Hall lid Hin) as (loc & -> & _). eauto. }
  exists {| locations := locations s1;
            reservations := <[res_id res := res]> (reservations s1) |}.
  split; [|split; [|split; [|split]]]; simpl.
  - unfold reserve. unfold bind at 1. rewrite validation_run.
    rewrite (proj2 (first_violation_None _ _) Hall).
    unfold bind at 1. rewrite Hrun.
    unfold bind, res_put, res_get, ret. simpl.
    by rewrite lookup_insert_eq.
  - intros lid Hin. unfold status_of. simpl. rewrite Hget.
    rewrite decide_True; [|done].
    by destruct (Hall lid Hin) as (loc & -> & _).
  - intros lid Hin. rewrite Hget. by rewrite decide_False.
  - by rewrite Hres.
  - exists res. by rewrite lookup_insert_eq.
Qed.

Lemma reserve_success_witness :
  ∃ s', reserve (hold "RES-1" ["L1"; "L3"]) sample
        = (s', inr (RespReservation (hold "RES-1" ["L1"; "L3"])))
        ∧ status_of "L1" s' = Some "RESERVED"
        ∧ status_of "L3" s' = Some "RESERVED"
        ∧ status_of "L2" s' = Some "OCCUPIED"
        ∧ reservations s' !! "RES-1" = Some (hold "RES-1" ["L1"; "L3"]).
Proof.
  destruct (reserve_success (hold "RES-1" ["L1"; "L3"]) sample)
    as (s' & Hrun & Hin & Hout & Hres & _).
  - simpl. intros lid [->|[->|[]%elem_of_nil]%elem_of_cons]%elem_of_cons;
      eexists; (split; [reflexivity | reflexivity]).
  - exists s'. split; [exact Hrun|].
    split; [apply Hin; simpl; apply list_elem_of_here|].
    split; [apply Hin; simpl; apply list_elem_of_further, list_elem_of_here|].
    split.
    + unfold status_of. rewrite (Hout "L2"); [reflexivity|].
      simpl. intros [?|[?|[]%elem_of_nil]%elem_of_cons]%elem_of_cons; discriminate.
    + rewrite Hres. apply lookup_insert_eq.
Defined.

(** C3, as the code has it. [reserve] walks the ids once, in list order, and
    applies both tests to each id before it looks at the next; it stops at the
    first id that fails either test.  With every earlier id present and FREE,
    a missing id raises 404 naming it and a present id that is not FREE raises
    409 naming it, whatever follows in the list; the state is left as it was. *)
Theorem reserve_first_failing_id (res : Reservation) (s : State) pre lid post :
  location_ids res = (pre ++ lid :: post)%list →
  (∀ k, k ∈ pre → ∃ loc, Dict.get k (locations s) = Some loc ∧ status loc = "FREE") →
  (Dict.get lid (locations s) = None →
   reserve res s = (s, inl (HTTPException 404 ("Location " +:+ lid +:+ " not found"))))
  ∧ (∀ loc, Dict.get lid (locations s) = Some loc → status loc ≠ "FREE" →
     reserve res s = (s, inl (HTTPException 409 ("Location " +:+ lid +:+ " not FREE")))).
Proof.
  intros Hids Hpre.
  apply first_violation_None in Hpre.
  assert (∀ e, check_id (locations s) lid = Some e → reserve res s = (s, inl e)) as H.
  { intros e He. unfold reserve. unfold bind at 1. rewrite validation_run, Hids.
    rewrite first_violation_app by done. by rewrite He. }
  split.
  - intros Hnone. apply H. unfold check_id. by rewrite Hnone.
  - intros loc Hloc Hst%String.eqb_neq. apply H. unfold check_id. by rewrite Hloc, Hst.
Qed.

Lemma reserve_first_failing_id_witness :
  reserve (hold "RES-1" ["L1"; "L2"; "L9"]) sample
  = (sample, inl (HTTPException 409 "Location L2 not FREE")).
Proof.
  apply (reserve_first_failing_id (hold "RES-1" ["L1"; "L2"; "L9"]) sample
           ["L1"] "L2" ["L9"] eq_refl) with (loc := row "L2" "OCCUPIED" "").
  - intros k [->|[]%elem_of_nil]%elem_of_cons.
    eexists; (split; [reflexivity | reflexivity]).
  - reflexivity.
  - discriminate.
Defined.

(** C3, as stated, fails: L2 comes first and is OCCUPIED, L9 comes later and
    is missing, and the call raises Conflict on L2, not NotFound on L9. *)
Lemma reserve_conflict_precedes_later_missing :
  status_of "L2" sample = Some "OCCUPIED"
  ∧ Dict.get "L9" (locations sample) = None
  ∧ reserve (hold "RES-1" ["L2"; "L9"]) sample
    = (sample, inl (HTTPException 409 "Location L2 not FREE"))
  ∧ ¬ fails_with NotFound (reserve (hold "RES-1" ["L2"; "L9"]) sample).
Proof.
  assert (reserve (hold "RES-1" ["L2"; "L9"]) sample
          = (sample, inl (HTTPException 409 "Location L2 not FREE"))) as H.
  { unfold reserve. unfold bind at 1. by rewrite validation_run. }
  do 2 (split; [done|]). split; [exact H|].
  rewrite H. intros (e & [= <-] & d & [=]).
Qed.

(** ** [move], [occupy] and [free] *)

(** C4. [move a b] answers exactly when both ids exist, [a] is OCCUPIED and
    [b] is FREE or RESERVED.  A missing id raises NotFound; a source that is
    not OCCUPIED, or a destination that is neither FREE nor RESERVED, raises
    Conflict.  After an answer [a] is FREE and [b] is OCCUPIED; after a raise
    the state, and with it both statuses, is as before. *)
Theorem move_spec (a b : string) (p : option string) (s : State) :
  (succeeds (move a b p s)
   ↔ ∃ la lb, Dict.get a (locations s) = Some la
              ∧ Dict.get b (locations s) = Some lb
              ∧ status la = "OCCUPIED"
              ∧ (status lb = "FREE" ∨ status lb = "RESERVED"))
  ∧ (Dict.get a (locations s) = None ∨ Dict.get b (locations s) = None →
     fails_with NotFound (move a b p s))
  ∧ (∀ la lb, Dict.get a (locations s) = Some la →
              Dict.get b (locations s) = Some lb →
              status la ≠ "OCCUPIED" ∨ (status lb ≠ "FREE" ∧ status lb ≠ "RESERVED") →
              fails_with Conflict (move a b p s))
  ∧ (succeeds (move a b p s) →
     status_of a (move a b p s).1 = Some "FREE"
     ∧ status_of b (move a b p s).1 = Some "OCCUPIED")
  ∧ (¬ succeeds (move a b p s) → (move a b p s).1 = s).
Proof.
  destruct (Dict.get a (locations s)) as [la|] eqn:Ha;
    [destruct (Dict.get b (locations s)) as [lb|] eqn:Hb|].
  - destruct (decide (status la = "OCCUPIED")) as [Hfrom|Hfrom].
    + destruct (not_free_or_reserved (status lb)) eqn:Hto.
      * (* destination refused *)
        rewrite (move_to_refused a b p la lb s Ha Hb Hfrom Hto).
        apply not_free_or_reserved_true in Hto.
        split; [split|].
        -- intros (r & [=]).
        -- intros (la' & lb' & _ & [= <-] & _ & [?|?]); tauto.
        -- split; [intros [[=]|[=]]|].
           split; [intros ? ? _ _ _; eexists; split; [done | by eexists]|].
           split; [intros (r & [=]) | done].
      * (* both guards pass *)
        rewrite (move_done a b p la lb s Ha Hb Hfrom Hto).
        pose proof (move_guards_distinct a b la lb _ Ha Hb Hfrom Hto) as Hne.
        apply not_free_or_reserved_false in Hto.
        split; [split|].
        -- intros _. by exists la, lb.
        -- intros _. by eexists.
        -- split; [intros [[=]|[=]]|].
           split.
           { intros la' lb' [= <-] [= <-] [?|[? ?]]; [done | by destruct Hto]. }
           split.
           { intros _. unfold status_of. simpl.
             rewrite DictFacts.get_set_ne, !DictFacts.get_set_eq; [done | congruence]. }
           intros H. exfalso. apply H. by eexists.
    + (* source refused *)
      rewrite (move_from_refused a b p la lb s Ha Hb Hfrom).
      split; [split|].
      * intros (r & [=]).
      * intros (la' & lb' & [= <-] & _ & ? & _). done.
      * split; [intros [[=]|[=]]|].
        split; [intros ? ? _ _ _; eexists; split; [done | by eexists]|].
        split; [intros (r & [=]) | done].
  - rewrite (move_missing a b p s) by (right; exact Hb).
    split; [split|].
    + intros (r & [=]).
    + intros (la' & lb' & _ & [=] & _).
    + split; [intros _; eexists; split; [done | by eexists]|].
      split; [intros ? ? _ [=]|].
      split; [intros (r & [=]) | done].
  - rewrite (move_missing a b p s) by (left; exact Ha).
    split; [split|].
    + intros (r & [=]).
    + intros (la' & lb' & [=] & _).
    + split; [intros _; eexists; split; [done | by eexists]|].
      split; [intros ? ? [=]|].
      split; [intros (r & [=]) | done].
Qed.

Example move_scenario :
  let s1 := (move "L2" "L1" None sample).1 in
  (move "L2" "L1" None sample).2
  = inr (RespMove (row "L2" "FREE" "") (row "L1" "OCCUPIED" ""))
  ∧ status_of "L2" s1 = Some "FREE"
  ∧ status_of "L1" s1 = Some "OCCUPIED"
  ∧ move "L2" "L1" None s1 = (s1, inl (HTTPException 409 "From location not OCCUPIED")).
Proof. by repeat split. Qed.

(** C10. Moving a location onto itself never succeeds: for an existing id
    the call raises Conflict and the state is left as it was. *)
Theorem move_same_location (a : string) (p : option string) (s : State) :
  is_Some (Dict.get a (locations s)) →
  ∃ e, move a a p s = (s, inl e) ∧ Conflict e.
Proof.
  intros [la Ha].
  destruct (decide (status la = "OCCUPIED")) as [Hfrom|Hfrom].
  - rewrite (move_to_refused a a p la la s Ha Ha Hfrom).
    + eexists. split; [done | by eexists].
    + apply not_free_or_reserved_true. rewrite Hfrom. by split.
  - rewrite (move_from_refused a a p la la s Ha Ha Hfrom).
    eexists. split; [done | by eexists].
Qed.

Lemma move_same_location_witness :
  ∃ e, move "L2" "L2" None sample = (sample, inl e) ∧ Conflict e.
Proof.
  apply (move_same_location "L2" None sample).
  exists (row "L2" "OCCUPIED" ""). reflexivity.
Defined.

(** C5. [occupy] answers exactly when the id exists and its status is FREE
    or RESERVED, and then the status is OCCUPIED.  A missing id raises
    NotFound; any other status (OCCUPIED, BLOCKED and MAINT among them) raises
    Conflict and the state, and with it the status, is as before. *)
Theorem occupy_spec (lid : string) (p : option string) (s : State) :
  (succeeds (occupy lid p s)
   ↔ ∃ loc, Dict.get lid (locations s) = Some loc
            ∧ (status loc = "FREE" ∨ status loc = "RESERVED"))
  ∧ (Dict.get lid (locations s) = None → fails_with NotFound (occupy lid p s))
  ∧ (∀ loc, Dict.get lid (locations s) = Some loc →
            status loc ≠ "FREE" → status loc ≠ "RESERVED" →
            fails_with Conflict (occupy lid p s)
            ∧ (occupy lid p s).1 = s
            ∧ status_of lid (occupy lid p s).1 = Some (status loc))
  ∧ (succeeds (occupy lid p s) → status_of lid (occupy lid p s).1 = Some "OCCUPIED")
  ∧ (¬ succeeds (occupy lid p s) → (occupy lid p s).1 = s).
Proof.
  destruct (Dict.get lid (locations s)) as [loc|] eqn:Hloc.
  - destruct (not_free_or_reserved (status loc)) eqn:Hst.
    + rewrite (occupy_refused lid p loc s Hloc Hst).
      apply not_free_or_reserved_true in Hst.
      split; [split|].
      * intros (r & [=]).
      * intros (loc' & [= <-] & [?|?]); tauto.
      * split; [intros [=]|].
        split.
        { intros loc' [= <-] _ _. split; [eexists; split; [done | by eexists]|].
          split; [done|]. unfold status_of. simpl. by rewrite Hloc. }
        split; [intros (r & [=]) | done].
    + rewrite (occupy_done lid p loc s Hloc Hst).
      apply not_free_or_reserved_false in Hst.
      split; [split|].
      * intros _. by exists loc.
      * intros _. by eexists.
      * split; [intros [=]|].
        split; [intros loc' [= <-] ? ?; by destruct Hst|].
        split.
        { intros _. unfold status_of. simpl. by rewrite DictFacts.get_set_eq. }
        intros H. exfalso. apply H. by eexists.
  - rewrite (occupy_missing lid p s Hloc).
    split; [split|].
    + intros (r & [=]).
    + intros (loc' & [=] & _).
    + split; [intros _; eexists; split; [done | by eexists]|].
      split; [intros ? [=]|].
      split; [intros (r & [=]) | done].
Qed.

Example occupy_scenario :
  status_of "L1" (occupy "L1" None sample).1 = Some "OCCUPIED"
  ∧ occupy "L2" None sample = (sample, inl (HTTPException 409 "Location not FREE/RESERVED"))
  ∧ occupy "L5" None sample = (sample, inl (HTTPException 409 "Location not FREE/RESERVED"))
  ∧ occupy "L9" None sample = (sample, inl (HTTPException 404 "Location not found")).
Proof. by repeat split. Qed.

(** C6. [free] on an existing id answers whatever the current status
    (BLOCKED and MAINT included) and sets it to FREE; on a missing id it raises
    NotFound and changes nothing.  Calling it a second time with the same id
    gives the state the first call gave. *)
Theorem free_unconditional_idempotent (lid : string) (s : State) :
  (∀ loc, Dict.get lid (locations s) = Some loc →
          (free lid s).2 = inr (RespLocation (with_status "FREE" loc))
          ∧ status_of lid (free lid s).1 = Some "FREE"
          ∧ succeeds (free lid (free lid s).1))
  ∧ (Dict.get lid (locations s) = None →
     ∃ e, free lid s = (s, inl e) ∧ NotFound e)
  ∧ (free lid (free lid s).1).1 = (free lid s).1.
Proof.
  destruct (Dict.get lid (locations s)) as [loc|] eqn:Hloc.
  - rewrite (free_done lid loc s Hloc). simpl.
    set (s1 := {| locations := _; reservations := _ |}).
    assert (Dict.get lid (locations s1) = Some (with_status "FREE" loc)) as H1
      by apply DictFacts.get_set_eq.
    rewrite (free_done lid _ s1 H1).
    split; [|split; [intros [=]|]].
    + intros loc' [= <-]. split; [done|]. split; [|by eexists].
      unfold status_of. by rewrite H1.
    + simpl. by rewrite DictFacts.set_set.
  - rewrite (free_missing lid s Hloc). simpl. rewrite (free_missing lid s Hloc).
    split; [intros ? [=]|]. split; [|done].
    intros _. eexists. split; [done | by eexists].
Qed.

Example free_scenario :
  status_of "L5" sample = Some "BLOCKED"
  ∧ status_of "L5" (free "L5" sample).1 = Some "FREE"
  ∧ (free "L5" (free "L5" sample).1).1 = (free "L5" sample).1
  ∧ free "L9" sample = (sample, inl (HTTPException 404 "Location not found")).
Proof. by repeat split. Qed.

(** ** [get_locations] *)

Lemma kept_filters_hold q loc : kept q loc → filters_hold q loc.
Proof.
  rewrite kept_iff. rewrite !skip_ne_false, !skip_lt_false.
  unfold filters_hold, str_filter_holds, min_filter_holds.
  intros (H1 & H2 & H3 & H4 & H5 & H6 & H7 & H8).
  repeat split; auto;
    intros n Hn Hor; destruct (decide (n = 0%Z)) as [->|Hz];
    solve [ destruct Hor; [done | lia] | eauto ].
Qed.

(** A catalogue loaded from rows with pairwise distinct ids lists them in
    file order. *)
Lemma set_absent {V} k (v : V) d : Dict.get k d = None → Dict.set k v d = (d ++ [(k, v)])%list.
Proof.
  induction d as [|[k' v'] d IH]; simpl; [done|].
  destruct (String.eqb k k'); [discriminate|]. intros H. by rewrite IH.
Qed.

Lemma get_app_absent {V} k (v : V) k' d :
  Dict.get k' d = None → k ≠ k' → Dict.get k' (d ++ [(k, v)])%list = None.
Proof.
  intros Hd Hne. induction d as [|[k0 v0] d IH]; simpl in *.
  - destruct (String.eqb k' k) eqn:E; [|done]. apply String.eqb_eq in E. congruence.
  - destruct (String.eqb k' k0); [discriminate | auto].
Qed.

Lemma load_locations_distinct rows :
  NoDup (loc_id <$> rows) → Dict.values (load_locations rows) = rows.
Proof.
  unfold load_locations.
  assert (∀ d, (∀ r, r ∈ rows → Dict.get (loc_id r) d = None) →
               NoDup (loc_id <$> rows) →
               Dict.values (foldl (λ d r, Dict.set (loc_id r) r d) d rows)
               = (Dict.values d ++ rows)%list) as H.
  { induction rows as [|r rows IH]; intros d Hd Hnd; simpl.
    - by rewrite app_nil_r.
    - rewrite fmap_cons in Hnd. apply NoDup_cons in Hnd as [Hr Hnd].
      rewrite set_absent by (apply Hd; apply list_elem_of_here).
      rewrite IH; [|  |done].
      + unfold Dict.values. rewrite map_app. simpl. by rewrite <- app_assoc.
      + intros r' Hr'. apply get_app_absent.
        * apply Hd. by apply list_elem_of_further.
        * intros E. apply Hr. rewrite E. by apply list_elem_of_fmap_2. }
  intros Hnd. by rewrite H.
Qed.

(** Whatever the limit, [count] is the number of items in the answer, and
    for a limit of at least one the answer holds at most [limit] items. *)
Lemma get_locations_count (q : LocationQuery) (s : State) :
  ∃ items, get_locations q s = (s, inr (RespLocations (length items) items))
           ∧ ((1 ≤ limit q)%Z → (Z.of_nat (length items) ≤ limit q)%Z)
           ∧ (length items ≤ effective_limit q)%nat.
Proof.
  eexists. split; [apply get_locations_run|].
  assert (∀ l : list Location,
            (length (take (effective_limit q) l) ≤ effective_limit q)%nat) as H.
  { intros l. rewrite length_take. lia. }
  split; [|apply H].
  intros Hl. rewrite <- (effective_limit_ge_1 q Hl).
  specialize (H (filter (kept q) (Dict.values (locations s)))). lia.
Qed.

(** C7. The cap is tested after the append ([if len(results) >= limit:
    break]), so a limit of zero still lets the first matching row through:
    on the five-row catalogue, with no filter and limit 0, the answer has
    count 1 and one item, more than the limit allows. *)
Theorem get_locations_limit_zero :
  get_locations (with_limit 0 no_filter) sample
  = (sample, inr (RespLocations 1 [row "L1" "FREE" ""]))
  ∧ (limit (with_limit 0 no_filter) < Z.of_nat (length [row "L1" "FREE" ""]))%Z.
Proof. split; [reflexivity | simpl; lia]. Qed.

(** C8, as the code has it. Every row in the answer passes every filter the
    guards apply: it equals each string filter that is given and not empty,
    and reaches each minimum that is given and not zero (a zero minimum is
    not tested, and is met by any non-negative dimension).  The items are a
    subsequence of the catalogue's values, so they come in catalogue order. *)
Theorem get_locations_filters (q : LocationQuery) (s : State) :
  ∃ items, get_locations q s = (s, inr (RespLocations (length items) items))
           ∧ items `sublist_of` Dict.values (locations s)
           ∧ ∀ loc, loc ∈ items → filters_hold q loc.
Proof.
  eexists. split; [apply get_locations_run|]. split.
  - etrans; [apply sublist_take | apply sublist_filter].
  - intros loc Hin. apply kept_filters_hold.
    pose proof (elem_of_sublist _ _ _ Hin (sublist_take _ _)) as Hin'.
    by apply list_elem_of_filter in Hin' as [? _].
Qed.

(** C8, as stated, fails: with the empty string given as [group_id] filter
    the guard is skipped, and the answer holds L3, whose [group_id] is not
    empty. *)
Lemma empty_group_filter_ignored :
  q_group_id (with_group_id (Some "") no_filter) = Some ""
  ∧ get_locations (with_group_id (Some "") no_filter) sample
    = (sample, inr (RespLocations 5 sample_rows))
  ∧ row "L3" "FREE" "FLEX-02-OVR-01" ∈ sample_rows
  ∧ group_id (row "L3" "FREE" "FLEX-02-OVR-01") ≠ "".
Proof.
  split; [done|]. split; [reflexivity|]. split; [|discriminate].
  unfold sample_rows. do 2 apply list_elem_of_further. apply list_elem_of_here.
Qed.

(** ** Statuses across request sequences *)

Lemma exec_evolves ops s : evolves s (exec ops s).
Proof.
  apply exec_related;
    [apply evolves_refl | apply evolves_trans | apply evolves_set | apply evolves_ledger].
Qed.

Lemma step_evolves s op : evolves s (step s op).
Proof. apply (exec_evolves [op]). Qed.

Lemma exec_shape_kept ops s : shape_kept s (exec ops s).
Proof.
  apply exec_related;
    [ apply shape_kept_refl | apply shape_kept_trans
    | apply shape_kept_set | apply shape_kept_ledger ].
Qed.

(** Requests keep the catalogue's keys and their order, so a state reached
    from a loaded dataset holds no key twice and every row of it is the one
    its key looks up. *)
Lemma exec_keys ops s : Dict.keys (locations (exec ops s)) = Dict.keys (locations s).
Proof. apply exec_shape_kept. Qed.

Lemma reachable_NoDup rows ops :
  NoDup (Dict.keys (locations (exec ops (init_state rows)))).
Proof. rewrite exec_keys. apply load_locations_NoDup. Qed.

Lemma evolves_status_change s s' lid v v' :
  evolves s s' →
  status_of lid s = Some v → status_of lid s' = Some v' → v' ≠ v → op_status v'.
Proof.
  unfold status_of. intros H Hv Hv' Hne.
  destruct (H lid) as [E | (loc & w & G & Hw & E)].
  - rewrite E in Hv'. congruence.
  - rewrite E in Hv'. simpl in Hv'. by injection Hv' as <-.
Qed.

Lemma evolves_presence s s' lid :
  evolves s s' → (status_of lid s' = None ↔ status_of lid s = None).
Proof.
  unfold status_of. intros H.
  destruct (H lid) as [E | (loc & w & G & Hw & E)]; rewrite E; [done|].
  rewrite G. simpl. split; discriminate.
Qed.

Lemma evolves_blocked_from_start s s' lid v :
  evolves s s' →
  v = "BLOCKED" ∨ v = "MAINT" →
  status_of lid s' = Some v → status_of lid s = Some v.
Proof.
  unfold status_of. intros H Hv Hs'.
  destruct (H lid) as [E | (loc & w & G & Hw & E)].
  - by rewrite <- E.
  - rewrite E in Hs'. simpl in Hs'. injection Hs' as <-.
    exfalso. destruct Hv as [->| ->], Hw as [?|[?|?]]; discriminate.
Qed.

(** C9. Start from any dataset whose rows all carry one of the five
    statuses and run any sequence of requests.  In the state reached every
    row still carries one of the five; a further request of any kind never
    adds or drops a location, and when it changes a location's status the new
    value is FREE, OCCUPIED or RESERVED; and a location that is BLOCKED or
    MAINT in the state reached had that very status in the initial dataset. *)
Theorem no_transition_into_blocked_or_maint (rows : list Location) (ops : list Op) :
  Forall (λ r, enum_status (status r)) rows →
  statuses_valid (locations (exec ops (init_state rows)))
  ∧ (∀ op lid, status_of lid (step (exec ops (init_state rows)) op) = None
               ↔ status_of lid (exec ops (init_state rows)) = None)
  ∧ (∀ op lid v v',
       status_of lid (exec ops (init_state rows)) = Some v →
       status_of lid (step (exec ops (init_state rows)) op) = Some v' →
       v' ≠ v → op_status v')
  ∧ (∀ lid v,
       v = "BLOCKED" ∨ v = "MAINT" →
       status_of lid (exec ops (init_state rows)) = Some v →
       status_of lid (init_state rows) = Some v).
Proof.
  intros Hrows. split; [|split; [|split]].
  - apply (exec_shape_kept ops (init_state rows)). simpl.
    by apply load_locations_valid.
  - intros op lid. apply evolves_presence, step_evolves.
  - intros op lid v v'. apply evolves_status_change, step_evolves.
  - intros lid v. apply evolves_blocked_from_start, exec_evolves.
Qed.

Example sample_run :
  (λ lid, status_of lid (exec sample_ops sample)) <$> ["L1"; "L2"; "L3"; "L4"; "L5"]
  = [Some "OCCUPIED"; Some "FREE"; Some "OCCUPIED"; Some "OCCUPIED"; Some "FREE"].
Proof. reflexivity. Qed.

Lemma no_transition_into_blocked_or_maint_witness :
  statuses_valid (locations (exec sample_ops (init_state sample_rows))).
Proof.
  refine (proj1 (no_transition_into_blocked_or_maint sample_rows sample_ops _)).
  unfold sample_rows, enum_status. repeat constructor; simpl; tauto.
Defined.

(** ** Further properties of the endpoints *)

Lemma set_same {V} k (v : V) d : Dict.get k d = Some v → Dict.set k v d = d.
Proof.
  induction d as [|[k' v'] d IH]; simpl; [done|].
  destruct (String.eqb k k') eqn:E.
  - apply String.eqb_eq in E. by intros [= ->]; subst.
  - intros H. by rewrite IH.
Qed.

(** Two in-place assignments to distinct keys commute once one key is held. *)
Lemma set_comm_present {V} a b (x y : V) d :
  a ≠ b → is_Some (Dict.get a d) →
  Dict.set a x (Dict.set b y d) = Dict.set b y (Dict.set a x d).
Proof.
  intros Hne. induction d as [|[k v] d IH]; simpl; intros [z Hz]; [done|].
  destruct (String.eqb a k) eqn:Ea, (String.eqb b k) eqn:Eb; simpl;
    rewrite ?Ea, ?Eb; simpl.
  - apply String.eqb_eq in Ea, Eb. congruence.
  - assert (String.eqb b a = false) as -> by (apply String.eqb_neq; congruence).
    done.
  - assert (String.eqb a b = false) as -> by (by apply String.eqb_neq).
    done.
  - f_equal. apply IH. eauto.
Qed.

(** The two ways [reserve] can end. *)
Lemma reserve_cases res s :
  (∃ e, first_violation (locations s) (location_ids res) = Some e
        ∧ reserve res s = (s, inl e))
  ∨ (first_violation (locations s) (location_ids res) = None
     ∧ ∃ s', reserve res s = (s', inr (RespReservation res))
             ∧ reservations s' = <[res_id res := res]> (reservations s)
             ∧ ∀ k, Dict.get k (locations s')
                    = if decide (k ∈ location_ids res)
                      then with_status "RESERVED" <$> Dict.get k (locations s)
                      else Dict.get k (locations s)).
Proof.
  destruct (first_violation (locations s) (location_ids res)) as [e|] eqn:E.
  - left. exists e. split; [done|].
    unfold reserve. unfold bind at 1. by rewrite validation_run, E.
  - right. split; [done|].
    pose proof (proj1 (first_violation_None _ _) E) as Hall.
    destruct (marking_run (location_ids res) s) as (s1 & Hrun & Hres & _ & Hget).
    { intros lid Hin. destruct (Hall lid Hin) as (loc & -> & _). eauto. }
    exists {| locations := locations s1;
              reservations := <[res_id res := res]> (reservations s1) |}.
    split; [|split]; simpl; [|by rewrite Hres|done].
    unfold reserve. unfold bind at 1. rewrite validation_run, E.
    unfold bind at 1. rewrite Hrun.
    unfold bind, res_put, res_get, ret. simpl.
    by rewrite lookup_insert_eq.
Qed.

(** The two ways [occupy], [free] and [move] can end. *)
Lemma occupy_cases lid p s :
  (∃ e, occupy lid p s = (s, inl e) ∧ (NotFound e ∨ Conflict e))
  ∨ (∃ loc, Dict.get lid (locations s) = Some loc
            ∧ (status loc = "FREE" ∨ status loc = "RESERVED")
            ∧ occupy lid p s
              = ({| locations := Dict.set lid (with_status "OCCUPIED" loc) (locations s);
                    reservations := reservations s |},
                 inr (RespLocation (with_status "OCCUPIED" loc)))).
Proof.
  destruct (Dict.get lid (locations s)) as [loc|] eqn:Hloc.
  - destruct (not_free_or_reserved (status loc)) eqn:Hst.
    + left. eexists. split; [by apply (occupy_refused lid p loc)|]. right. by eexists.
    + right. exists loc. split; [done|].
      split; [by apply not_free_or_reserved_false | by apply occupy_done].
  - left. eexists. split; [by apply occupy_missing|]. left. by eexists.
Qed.

Lemma free_cases lid s :
  (∃ e, free lid s = (s, inl e) ∧ NotFound e)
  ∨ (∃ loc, Dict.get lid (locations s) = Some loc
            ∧ free lid s
              = ({| locations := Dict.set lid (with_status "FREE" loc) (locations s);
                    reservations := reservations s |},
                 inr (RespLocation (with_status "FREE" loc)))).
Proof.
  destruct (Dict.get lid (locations s)) as [loc|] eqn:Hloc.
  - right. exists loc. split; [done | by apply free_done].
  - left. eexists. split; [by apply free_missing | by eexists].
Qed.

Lemma move_cases a b p s :
  (∃ e, move a b p s = (s, inl e) ∧ (NotFound e ∨ Conflict e))
  ∨ (∃ la lb, Dict.get a (locations s) = Some la
              ∧ Dict.get b (locations s) = Some lb
              ∧ a ≠ b
              ∧ status la = "OCCUPIED"
              ∧ (status lb = "FREE" ∨ status lb = "RESERVED")
              ∧ move a b p s
                = ({| locations :=
                        Dict.set b (with_status "OCCUPIED" lb)
                          (Dict.set a (with_status "FREE" la) (locations s));
                      reservations := reservations s |},
                   inr (RespMove (with_status "FREE" la) (with_status "OCCUPIED" lb)))).
Proof.
  destruct (Dict.get a (locations s)) as [la|] eqn:Ha;
    [destruct (Dict.get b (locations s)) as [lb|] eqn:Hb|].
  - destruct (decide (status la = "OCCUPIED")) as [Hfrom|Hfrom].
    + destruct (not_free_or_reserved (status lb)) eqn:Hto.
      * left. eexists. split; [by apply (move_to_refused a b p la lb)|].
        right. by eexists.
      * right. exists la, lb. do 2 (split; [done|]).
        split; [by eapply move_guards_distinct|]. split; [done|].
        split; [by apply not_free_or_reserved_false | by apply move_done].
    + left. eexists. split; [by apply (move_from_refused a b p la lb)|].
      right. by eexists.
  - left. eexists. split; [apply move_missing; by right|]. left. by eexists.
  - left. eexists. split; [apply move_missing; by left|]. left. by eexists.
Qed.

(** X1. Every raise of every endpoint is a 404 or a 409 thrown before the first
    write: the state is handed back untouched, and no subscript ever meets a
    missing key. *)
Theorem raise_is_clean (op : Op) (s : State) (e : Exn) :
  (run_op op s).2 = inl e →
  (NotFound e ∨ Conflict e) ∧ (run_op op s).1 = s.
Proof.
  destruct op as [|q|res|lid p|lid|a b p]; simpl.
  - discriminate.
  - discriminate.
  - destruct (reserve_cases res s) as [(e' & Hv & ->)|(_ & s' & -> & _)]; simpl.
    + intros [= <-]. split; [by eapply first_violation_error | done].
    + discriminate.
  - destruct (occupy_cases lid p s) as [(e' & -> & He)|(loc & _ & _ & ->)]; simpl.
    + by intros [= <-].
    + discriminate.
  - destruct (free_cases lid s) as [(e' & -> & He)|(loc & _ & ->)]; simpl.
    + intros [= <-]. split; [by left | done].
    + discriminate.
  - destruct (move_cases a b p s)
      as [(e' & -> & He)|(la & lb & _ & _ & _ & _ & _ & ->)]; simpl.
    + by intros [= <-].
    + discriminate.
Qed.

Lemma raise_is_clean_witness :
  (NotFound (HTTPException 409 "Location not FREE/RESERVED")
   ∨ Conflict (HTTPException 409 "Location not FREE/RESERVED"))
  ∧ (run_op (OpOccupy "L5" None) sample).1 = sample.
Proof.
  apply (raise_is_clean (OpOccupy "L5" None) sample). reflexivity.
Defined.

(** X2. One request changes a location's status only along an edge of the status
    machine, and only through the endpoint that owns the edge: [reserve] takes
    a listed id from FREE to RESERVED, [occupy] its id from FREE or RESERVED to
    OCCUPIED, [free] its id to FREE, [move] its source from OCCUPIED to FREE and
    its destination from FREE or RESERVED to OCCUPIED; the two reading
    endpoints change nothing. *)
Theorem status_change_table (s : State) (op : Op) (lid v v' : string) :
  status_of lid s = Some v →
  status_of lid (step s op) = Some v' →
  v' ≠ v →
  allowed_change op lid v v'.
Proof.
  unfold status_of, step. intros Hv Hv' Hne.
  destruct op as [|q|res|k p|k|a b p]; simpl in *.
  - congruence.
  - congruence.
  - destruct (reserve_cases res s) as [(e & _ & Hrun)|(Hok & s' & Hrun & _ & Hget)];
      rewrite Hrun in Hv'; simpl in Hv'; [congruence|].
    rewrite Hget in Hv'. case_decide as Hin; [|congruence].
    destruct (proj1 (first_violation_None _ _) Hok lid Hin) as (loc & Hloc & Hfree).
    rewrite Hloc in Hv, Hv'. simpl in *. split; [done|]. split; congruence.
  - destruct (occupy_cases k p s) as [(e & Hrun & _)|(loc & Hloc & Hst & Hrun)];
      rewrite Hrun in Hv'; simpl in Hv'; [congruence|].
    rewrite DictFacts.get_set in Hv'. case_decide as Hk; [subst k|congruence].
    rewrite Hloc in Hv. simpl in *. split; [done|]. split; congruence.
  - destruct (free_cases k s) as [(e & Hrun & _)|(loc & Hloc & Hrun)];
      rewrite Hrun in Hv'; simpl in Hv'; [congruence|].
    rewrite DictFacts.get_set in Hv'. case_decide as Hk; [subst k|congruence].
    simpl in *. split; congruence.
  - destruct (move_cases a b p s)
      as [(e & Hrun & _)|(la & lb & Ha & Hb & Hab & Hfrom & Hto & Hrun)];
      rewrite Hrun in Hv'; simpl in Hv'; [congruence|].
    rewrite !DictFacts.get_set in Hv'.
    case_decide as Hkb; [subst lid|].
    + right. rewrite Hb in Hv. simpl in *. split; [done|]. split; congruence.
    + case_decide as Hka; [subst lid|congruence].
      left. rewrite Ha in Hv. simpl in *. split; [done|]. split; congruence.
Qed.

Lemma status_change_table_witness :
  allowed_change (OpMove "L2" "L1" None) "L1" "FREE" "OCCUPIED".
Proof.
  apply (status_change_table sample (OpMove "L2" "L1" None) "L1" "FREE" "OCCUPIED");
    [reflexivity | reflexivity | discriminate].
Defined.

(** X3. Across any sequence of requests the catalogue keeps its keys in their
    order, and each row keeps every field except [status]. *)
Theorem rows_keep_their_fields (ops : list Op) (s : State) :
  Dict.keys (locations (exec ops s)) = Dict.keys (locations s)
  ∧ ∀ lid,
      match Dict.get lid (locations s), Dict.get lid (locations (exec ops s)) with
      | Some loc, Some loc' => loc' = with_status (status loc') loc
      | None, None => True
      | _, _ => False
      end.
Proof.
  split; [apply exec_keys|].
  intros lid. destruct (exec_evolves ops s lid) as [E | (loc & v & G & _ & E)]; rewrite E.
  - destruct (Dict.get lid (locations s)) as [loc|]; [|done].
    by rewrite with_status_same.
  - by rewrite G.
Qed.

(** X4. [health] reports the same number of locations after any sequence of
    requests as before it. *)
Theorem health_count_constant (ops : list Op) (s : State) :
  health (exec ops s) = (exec ops s, inr (RespHealth (length (locations s)))).
Proof.
  unfold health. do 3 f_equal.
  pose proof (exec_keys ops s) as H. unfold Dict.keys in H.
  apply (f_equal length) in H. by rewrite !length_map in H.
Qed.

Lemma step_ledger_dom (s : State) (op : Op) :
  dom (reservations s) ⊆ dom (reservations (step s op)).
Proof.
  unfold step. destruct op as [|q|res|lid p|lid|a b p]; simpl.
  - done.
  - done.
  - destruct (reserve_cases res s) as [(e & _ & ->)|(_ & s' & -> & Hres & _)]; simpl;
      [done|]. rewrite Hres, dom_insert. set_solver.
  - by destruct (occupy_cases lid p s) as [(e & -> & _)|(loc & _ & _ & ->)].
  - by destruct (free_cases lid s) as [(e & -> & _)|(loc & _ & ->)].
  - by destruct (move_cases a b p s) as [(e & -> & _)|(la & lb & _ & _ & _ & _ & _ & ->)].
Qed.

(** X5. The ledger is written by one event only, a [reserve] that answers, and
    then by a single insert under the request's id; every other request, and
    every request that raises, leaves it as it was.  In particular [free],
    [occupy] and [move] never touch a stored reservation. *)
Theorem ledger_written_only_by_reserve (s : State) (op : Op) :
  reservations (step s op)
  = match op, (run_op op s).2 with
    | OpReserve res, inr _ => <[res_id res := res]> (reservations s)
    | _, _ => reservations s
    end.
Proof.
  unfold step. destruct op as [|q|res|lid p|lid|a b p]; simpl.
  - done.
  - done.
  - destruct (reserve_cases res s) as [(e & _ & ->)|(_ & s' & -> & Hres & _)]; by simpl.
  - destruct (occupy_cases lid p s) as [(e & -> & _)|(loc & _ & _ & ->)];
      simpl; by destruct (occupy lid p s).2.
  - destruct (free_cases lid s) as [(e & -> & _)|(loc & _ & ->)];
      simpl; by destruct (free lid s).2.
  - destruct (move_cases a b p s) as [(e & -> & _)|(la & lb & _ & _ & _ & _ & _ & ->)];
      simpl; by destruct (move a b p s).2.
Qed.

(** X6. A reservation id, once stored, stays in the ledger whatever requests
    follow: nothing deletes or expires it. *)
Theorem ledger_never_shrinks (ops : list Op) (s : State) :
  dom (reservations s) ⊆ dom (reservations (exec ops s)).
Proof.
  revert s. induction ops as [|op ops IH]; intros s; simpl; [done|].
  etrans; [apply (step_ledger_dom s op) | apply IH].
Qed.

(** X7. A [reserve] that answered cannot be repeated: its first id is RESERVED
    now, so the same request raises 409 naming that id and changes nothing. *)
Theorem reserve_not_repeatable (res : Reservation) (s s' : State) (r : Response)
    (lid : string) (rest : list string) :
  location_ids res = lid :: rest →
  reserve res s = (s', inr r) →
  reserve res s' = (s', inl (HTTPException 409 ("Location " +:+ lid +:+ " not FREE"))).
Proof.
  intros Hids Hrun.
  destruct (reserve_cases res s) as [(e & _ & Hfail)|(Hok & s1 & Hrun1 & _ & Hget)];
    [congruence|].
  rewrite Hrun1 in Hrun. injection Hrun as -> _.
  destruct (proj1 (first_violation_None _ _) Hok lid) as (loc & Hloc & _).
  { rewrite Hids. apply list_elem_of_here. }
  assert (Dict.get lid (locations s') = Some (with_status "RESERVED" loc)) as Hnow.
  { rewrite Hget, decide_True, Hloc; [done|]. rewrite Hids. apply list_elem_of_here. }
  unfold reserve. unfold bind at 1. rewrite validation_run, Hids. simpl.
  unfold check_id. by rewrite Hnow.
Qed.

Lemma reserve_not_repeatable_witness :
  reserve (hold "RES-1" ["L1"; "L3"]) (reserve (hold "RES-1" ["L1"; "L3"]) sample).1
  = ((reserve (hold "RES-1" ["L1"; "L3"]) sample).1,
     inl (HTTPException 409 "Location L1 not FREE")).
Proof.
  apply (reserve_not_repeatable (hold "RES-1" ["L1"; "L3"]) sample _
           (RespReservation (hold "RES-1" ["L1"; "L3"])) "L1" ["L3"]);
    reflexivity.
Defined.

(** X8. A request with no location ids is accepted on every state: no location
    is touched and the empty reservation is stored under its id. *)
Theorem reserve_empty_request (res : Reservation) (s : State) :
  location_ids res = [] →
  reserve res s
  = ({| locations := locations s;
        reservations := <[res_id res := res]> (reservations s) |},
     inr (RespReservation res)).
Proof.
  intros Hids. unfold reserve. rewrite Hids. simpl.
  unfold bind, ret, res_put, res_get. simpl. by rewrite lookup_insert_eq.
Qed.

Lemma reserve_empty_request_witness :
  reserve (hold "RES-0" []) sample
  = ({| locations := locations sample;
        reservations := <[ "RES-0" := hold "RES-0" [] ]> (reservations sample) |},
     inr (RespReservation (hold "RES-0" []))).
Proof. apply (reserve_empty_request (hold "RES-0" []) sample). reflexivity. Defined.

(** X9. Moving a pallet from [a] to a FREE [b] and then back from [b] to [a]
    restores the state exactly. *)
Theorem move_there_and_back (a b : string) (p p' : option string)
    (la lb : Location) (s : State) :
  Dict.get a (locations s) = Some la →
  Dict.get b (locations s) = Some lb →
  status la = "OCCUPIED" →
  status lb = "FREE" →
  move b a p' (move a b p s).1 = (s, inr (RespMove lb la)).
Proof.
  intros Ha Hb Hfrom Hto.
  assert (not_free_or_reserved (status lb) = false) as Hnfr
    by (apply not_free_or_reserved_false; by left).
  pose proof (move_guards_distinct a b la lb _ Ha Hb Hfrom Hnfr) as Hne.
  rewrite (move_done a b p la lb s Ha Hb Hfrom Hnfr). simpl.
  set (s1 := {| locations := _; reservations := _ |}).
  assert (Dict.get b (locations s1) = Some (with_status "OCCUPIED" lb)) as Hb1
    by apply DictFacts.get_set_eq.
  assert (Dict.get a (locations s1) = Some (with_status "FREE" la)) as Ha1.
  { simpl. rewrite (DictFacts.get_set_ne b a); [|congruence]. apply DictFacts.get_set_eq. }
  rewrite (move_done b a p' _ _ s1 Hb1 Ha1 eq_refl eq_refl).
  rewrite !with_status_twice. rewrite <- Hfrom, <- Hto, !with_status_same.
  f_equal. destruct s as [d rs]. simpl in *. f_equal.
  rewrite DictFacts.set_set.
  rewrite (set_comm_present a b la lb) by (done || rewrite DictFacts.get_set_eq; eauto).
  rewrite DictFacts.set_set, (set_same a la d Ha). by apply set_same.
Qed.

Lemma move_there_and_back_witness :
  move "L1" "L2" None (move "L2" "L1" None sample).1
  = (sample, inr (RespMove (row "L1" "FREE" "") (row "L2" "OCCUPIED" ""))).
Proof.
  apply (move_there_and_back "L2" "L1" None None
           (row "L2" "OCCUPIED" "") (row "L1" "FREE" "") sample); reflexivity.
Defined.

(** X10. Occupying a FREE location and freeing it again restores the state. *)
Theorem occupy_then_free (lid : string) (p : option string) (loc : Location) (s : State) :
  Dict.get lid (locations s) = Some loc →
  status loc = "FREE" →
  free lid (occupy lid p s).1 = (s, inr (RespLocation loc)).
Proof.
  intros Hloc Hst.
  assert (not_free_or_reserved (status loc) = false) as Hnfr
    by (apply not_free_or_reserved_false; by left).
  rewrite (occupy_done lid p loc s Hloc Hnfr). simpl.
  set (s1 := {| locations := _; reservations := _ |}).
  assert (Dict.get lid (locations s1) = Some (with_status "OCCUPIED" loc)) as H1
    by apply DictFacts.get_set_eq.
  rewrite (free_done lid _ s1 H1).
  rewrite with_status_twice. rewrite <- Hst, with_status_same.
  f_equal. destruct s as [d rs]. simpl in *. f_equal.
  rewrite DictFacts.set_set. by apply set_same.
Qed.

Lemma occupy_then_free_witness :
  free "L1" (occupy "L1" None sample).1
  = (sample, inr (RespLocation (row "L1" "FREE" ""))).
Proof.
  apply (occupy_then_free "L1" None (row "L1" "FREE" "") sample); reflexivity.
Defined.

(** ** Further properties of [get_locations] *)

(** X11. The answer is exactly the first [max(1, limit)] rows of the catalogue
    that pass the guards, in catalogue order, and [count] is the smaller of
    that cap and the number of passing rows: when no more rows pass than the
    limit allows, none is left out. *)
Theorem get_locations_exact (q : LocationQuery) (s : State) :
  get_locations q s
  = (s, inr (RespLocations
               (Z.to_nat (Z.max 1 (limit q))
                  `min` length (filter (kept q) (Dict.values (locations s))))
               (take (Z.to_nat (Z.max 1 (limit q)))
                  (filter (kept q) (Dict.values (locations s)))))).
Proof.
  pose proof (get_locations_run q s) as H. simpl in H. rewrite H.
  by rewrite length_take.
Qed.

Lemma skip_ne_drop_falsy f field : skip_ne (drop_falsy_str f) field = skip_ne f field.
Proof.
  unfold drop_falsy_str, skip_ne. destruct (truthy_str f) eqn:E; [by rewrite E | done].
Qed.

Lemma skip_lt_drop_falsy f field : skip_lt (drop_falsy_int f) field = skip_lt f field.
Proof.
  unfold drop_falsy_int, skip_lt. destruct (truthy_int f) eqn:E; [by rewrite E | done].
Qed.

Lemma scan_ext q q' locs results :
  (∀ loc, skipped q loc = skipped q' loc) → limit q = limit q' →
  scan q locs results = scan q' locs results.
Proof.
  intros Hs Hl. revert results.
  induction locs as [|loc locs IH]; intros results; simpl; [done|].
  rewrite Hs, Hl. destruct (skipped q' loc); [apply IH|].
  destruct (limit q' <=? _)%Z; [done | apply IH].
Qed.

(** X12. A filter given as the empty string, or a minimum given as zero, is the
    same as no filter at all: dropping every such parameter from a query
    changes neither the answer nor the state. *)
Theorem falsy_filters_are_absent (q : LocationQuery) (s : State) :
  get_locations (drop_falsy q) s = get_locations q s.
Proof.
  unfold get_locations. rewrite (scan_ext (drop_falsy q) q); [done| |done].
  intros loc. unfold skipped. simpl.
  by rewrite !skip_ne_drop_falsy, !skip_lt_drop_falsy.
Qed.

(** ** Further properties of the loader *)

Lemma keys_set {V} k (v : V) d :
  Dict.keys (Dict.set k v d)
  = if decide (k ∈ Dict.keys d) then Dict.keys d else (Dict.keys d ++ [k])%list.
Proof.
  case_decide as Hin.
  - apply DictFacts.keys_set_present.
    destruct (Dict.get k d) eqn:E; [eauto|].
    by apply DictFacts.get_None_keys in E.
  - rewrite set_absent by (by apply DictFacts.get_None_keys).
    unfold Dict.keys. by rewrite map_app.
Qed.

Lemma load_locations_snoc rows r :
  load_locations (rows ++ [r]) = Dict.set (loc_id r) r (load_locations rows).
Proof. unfold load_locations. by rewrite foldl_app. Qed.

Lemma load_locations_get_from d k rows :
  Dict.get k (foldl (λ d r, Dict.set (loc_id r) r d) d rows)
  = match last (filter (λ r, loc_id r = k) rows) with
    | Some r => Some r
    | None => Dict.get k d
    end.
Proof.
  revert d. induction rows as [|r rows IH]; intros d; simpl; [done|].
  rewrite IH, DictFacts.get_set.
  destruct (decide (loc_id r = k)) as [E|E].
  - rewrite filter_cons_True by done. rewrite last_cons.
    by destruct (last (filter _ rows)).
  - by rewrite filter_cons_False by done.
Qed.

Lemma load_locations_keys rows :
  Dict.keys (load_locations rows) = reverse (remove_dups (reverse (loc_id <$> rows))).
Proof.
  induction rows as [|r rows IH] using rev_ind; [done|].
  rewrite load_locations_snoc, keys_set, IH, fmap_app, reverse_app. simpl.
  assert (loc_id r ∈ reverse (remove_dups (reverse (loc_id <$> rows)))
          ↔ loc_id r ∈ reverse (loc_id <$> rows)) as Hiff
    by (by rewrite elem_of_reverse, elem_of_remove_dups).
  destruct (decide_rel elem_of (loc_id r) (reverse (loc_id <$> rows))) as [Hin|Hin].
  - by rewrite decide_True by (by apply Hiff).
  - rewrite decide_False by (by rewrite Hiff). by rewrite reverse_cons.
Qed.

(** X13. Loading keeps, for each id, the last row that carries it, at the place
    where the id first occurred in the file; the row stored under a key has
    that key as its [id]. *)
Theorem load_last_row_first_place (rows : list Location) (k : string) :
  Dict.get k (load_locations rows) = last (filter (λ r, loc_id r = k) rows)
  ∧ Dict.keys (load_locations rows) = reverse (remove_dups (reverse (loc_id <$> rows)))
  ∧ ∀ loc, Dict.get k (load_locations rows) = Some loc → loc_id loc = k.
Proof.
  assert (Dict.get k (load_locations rows) = last (filter (λ r, loc_id r = k) rows)) as H.
  { unfold load_locations. rewrite load_locations_get_from.
    by destruct (last _). }
  split; [done|]. split; [apply load_locations_keys|].
  intros loc Hloc. rewrite H in Hloc. apply last_Some_elem_of in Hloc.
  by apply list_elem_of_filter in Hloc as [? _].
Qed.

Example load_duplicate_id :
  Dict.values (load_locations
     [row "L1" "FREE" ""; row "L2" "FREE" ""; row "L1" "BLOCKED" "G"])
  = [row "L1" "BLOCKED" "G"; row "L2" "FREE" ""].
Proof. reflexivity. Qed.

Lemma load_locations_length (rows : list Location) :
  length (load_locations rows) = length (remove_dups (loc_id <$> rows)).
Proof.
  transitivity (length (Dict.keys (load_locations rows)));
    [unfold Dict.keys; by rewrite length_map|].
  apply Permutation_length, NoDup_Permutation.
  - apply load_locations_NoDup.
  - apply NoDup_remove_dups.
  - intros k. rewrite load_locations_keys.
    by rewrite elem_of_reverse, !elem_of_remove_dups, elem_of_reverse.
Qed.

(** X14. The number [health] reports for a freshly loaded dataset is the number
    of distinct ids in it, not the number of rows. *)
Theorem health_counts_distinct_ids (rows : list Location) :
  health (init_state rows)
  = (init_state rows, inr (RespHealth (length (remove_dups (loc_id <$> rows))))).
Proof.
  unfold health. do 3 f_equal. simpl. apply load_locations_length.
Qed.

(** X15. In every state reached from a loaded dataset each row sits under its own
    [id], and no key occurs twice. *)
Theorem reachable_key_is_row_id (rows : list Location) (ops : list Op) :
  NoDup (Dict.keys (locations (exec ops (init_state rows))))
  ∧ ∀ k loc, Dict.get k (locations (exec ops (init_state rows))) = Some loc →
             loc_id loc = k.
Proof.
  split; [apply reachable_NoDup|].
  intros k loc Hloc.
  assert (∀ l0, Dict.get k (load_locations rows) = Some l0 → loc_id l0 = k) as Hinit.
  { intros l0 H0. unfold load_locations in H0. rewrite load_locations_get_from in H0.
    destruct (last (filter (λ r, loc_id r = k) rows)) as [r|] eqn:E; [|done].
    injection H0 as <-. apply last_Some_elem_of in E.
    by apply list_elem_of_filter in E as [? _]. }
  destruct (exec_evolves ops (init_state rows) k) as [E | (l0 & v & G & _ & E)].
  - apply Hinit. rewrite E in Hloc. exact Hloc.
  - rewrite E in Hloc. injection Hloc as <-. simpl. by apply Hinit.
Qed.

(** ** The random draws *)

Lemma random_choice_elem {A} (r : nat) (xs : list A) :
  xs ≠ [] → ∃ x, random_choice r xs = Some x ∧ x ∈ xs.
Proof.
  intros Hne. unfold random_choice.
  destruct (lookup_lt_is_Some_2 xs (r mod length xs)) as [x Hx].
  - apply Nat.mod_upper_bound. by destruct xs.
  - exists x. split; [done|]. by eapply list_elem_of_lookup_2.
Qed.

(** Bisecting below the total never runs past the last weight. *)
Lemma bisect_in_range (acc v : nat) (ws : list nat) :
  ws ≠ [] → (v < acc + sum_list ws)%nat →
  (length (filter (λ c, (c ≤ v)%nat) (cum_weights acc ws)) < length ws)%nat.
Proof.
  revert acc. induction ws as [|w ws IH]; intros acc Hne Hv; [done|].
  simpl in *. destruct ws as [|w' ws].
  - simpl in *. rewrite filter_cons_False by lia. simpl. lia.
  - specialize (IH (acc + w)%nat). 
    assert (length (filter (λ c, (c ≤ v)%nat) (cum_weights (acc + w) (w' :: ws)))
            < length (w' :: ws))%nat as H by (apply IH; [done | simpl in *; lia]).
    destruct (decide (acc + w ≤ v)%nat).
    + rewrite filter_cons_True by done. simpl in *. lia.
    + rewrite filter_cons_False by done. simpl in *. lia.
Qed.

Lemma random_choices_elem {A} (r : nat) (population : list A) (weights : list nat) :
  length weights = length population → (0 < sum_list weights)%nat →
  ∃ x, random_choices r population weights = Some x ∧ x ∈ population.
Proof.
  intros Hlen Htot. unfold random_choices. rewrite decide_True by done.
  destruct (lookup_lt_is_Some_2 population
              (length (filter (λ c, (c ≤ r mod sum_list weights)%nat)
                         (cum_weights 0 weights)))) as [x Hx].
  - rewrite <- Hlen. apply bisect_in_range.
    + intros ->. simpl in Htot. lia.
    + simpl. apply Nat.mod_upper_bound. lia.
  - exists x. split; [done|]. by eapply list_elem_of_lookup_2.
Qed.

Lemma weighted_status_enum (r : nat) (weights : list nat) :
  length weights = 5 → (0 < sum_list weights)%nat →
  ∃ st, weighted_status r weights = Some st ∧ enum_status st.
Proof.
  intros Hlen Htot.
  destruct (random_choices_elem r ["FREE"; "OCCUPIED"; "RESERVED"; "BLOCKED"; "MAINT"]
              weights Hlen Htot) as (st & Hst & Hin).
  exists st. split; [done|]. unfold enum_status.
  repeat (apply elem_of_cons in Hin as [->|Hin]; [tauto|]).
  by apply elem_of_nil in Hin.
Qed.

(** ** Loops that append rows *)

Lemma appends_row ids P (mk : option Location) r :
  mk = Some r → ids = [loc_id r] → P r →
  appends ids P (λ rows, r ← mk; Some (rows ++ [r])%list).
Proof.
  intros -> -> HP rows. exists [r]. simpl. split; [done|]. split; [done|].
  by constructor.
Qed.

Lemma appends_for_opt {A} ids P (xs : list A) (idf : A → list string)
    (body : list Location → A → option (list Location)) :
  ids = xs ≫= idf →
  (∀ x, x ∈ xs → appends (idf x) P (λ rows, body rows x)) →
  appends ids P (for_opt xs body).
Proof.
  intros -> Hbody. induction xs as [|x xs IH]; intros rows; simpl.
  - exists []. by rewrite app_nil_r.
  - destruct (Hbody x) with (rows := rows) as (new1 & -> & Hid1 & HP1);
      [apply list_elem_of_here|]. simpl.
    destruct IH with (rows := (rows ++ new1)%list) as (new2 & -> & Hid2 & HP2).
    { intros y Hy. apply Hbody. by apply list_elem_of_further. }
    exists (new1 ++ new2)%list. rewrite app_assoc. split; [done|].
    split; [by rewrite fmap_app, Hid1, Hid2 | by apply Forall_app].
Qed.

Lemma appends_then ids P ids1 ids2 (m1 m2 : list Location → option (list Location)) :
  ids = (ids1 ++ ids2)%list →
  appends ids1 P m1 → appends ids2 P m2 →
  appends ids P (λ rows, rows' ← m1 rows; m2 rows').
Proof.
  intros -> H1 H2 rows.
  destruct (H1 rows) as (new1 & -> & Hid1 & HP1). simpl.
  destruct (H2 (rows ++ new1)%list) as (new2 & -> & Hid2 & HP2).
  exists (new1 ++ new2)%list. rewrite app_assoc. split; [done|].
  split; [by rewrite fmap_app, Hid1, Hid2 | by apply Forall_app].
Qed.

Lemma appends_from_empty ids P m :
  appends ids P m → ∃ rows, m [] = Some rows ∧ loc_id <$> rows = ids ∧ Forall P rows.
Proof. intros H. destruct (H []) as (new & Hm & ? & ?). by exists new. Qed.

(** ** Characters and the aisle and level letters *)

Lemma byte_inj (a b : Z) :
  (0 ≤ a < 256)%Z → (0 ≤ b < 256)%Z → byte a = byte b → a = b.
Proof.
  intros Ha Hb [= H]. apply (f_equal Ascii.N_of_ascii) in H.
  rewrite !Ascii.N_ascii_embedding in H by lia. lia.
Qed.

Lemma chr_ascii (i : Z) : (0 ≤ i < 128)%Z → chr i = Some (byte i).
Proof.
  intros Hi. unfold chr.
  destruct (Z.ltb_spec i 0), (Z.ltb_spec 1114111 i), (Z.ltb_spec i 128); simpl;
    (done || lia).
Qed.

Lemma aisle_letters_in_range (n : Z) :
  (1 ≤ n ≤ 676)%Z →
  main_py._aisle_letters n
  = Some (byte (65 + (n - 1) / 26) ++ byte (65 + (n - 1) mod 26))
  ∧ (0 ≤ (n - 1) / 26 ≤ 25)%Z ∧ (0 ≤ (n - 1) mod 26 ≤ 25)%Z.
Proof.
  intros Hn.
  assert (0 ≤ (n - 1) / 26 ≤ 25)%Z as H1.
  { split; [apply Z.div_pos; lia|].
    apply Z.lt_succ_r, Z.div_lt_upper_bound; lia. }
  pose proof (Z.mod_pos_bound (n - 1) 26 ltac:(lia)) as H2.
  split; [|split; [done | lia]].
  unfold main_py._aisle_letters. simpl.
  by rewrite !chr_ascii by lia.
Qed.

Lemma level_letter_in_range (l : Z) :
  (1 ≤ l ≤ 26)%Z → main_py._level_letter l = Some (byte (96 + l)).
Proof. intros Hl. unfold main_py._level_letter. by rewrite chr_ascii by lia. Qed.

Example aisle_letters_docstring :
  main_py._aisle_letters 1 = Some "AA" ∧ main_py._aisle_letters 2 = Some "AB"
  ∧ main_py._aisle_letters 26 = Some "AZ" ∧ main_py._aisle_letters 27 = Some "BA"
  ∧ main_py._aisle_letters 28 = Some "BB".
Proof. by repeat split. Qed.

(** X16. [_aisle_letters] names aisles 1 to 676 by two capital letters read as a
    two-digit number in base 26 (AA for 1, ZZ for 676), so two aisles in that
    range never share their letters. *)
Theorem aisle_letters_base_26 (n m : Z) :
  (1 ≤ n ≤ 676)%Z → (1 ≤ m ≤ 676)%Z →
  (∃ c1 c2, main_py._aisle_letters n = Some (byte c1 ++ byte c2)
            ∧ (65 ≤ c1 ≤ 90)%Z ∧ (65 ≤ c2 ≤ 90)%Z
            ∧ n = (26 * (c1 - 65) + (c2 - 65) + 1)%Z)
  ∧ (main_py._aisle_letters n = main_py._aisle_letters m → n = m).
Proof.
  intros Hn Hm.
  destruct (aisle_letters_in_range n Hn) as (En & Hn1 & Hn2).
  destruct (aisle_letters_in_range m Hm) as (Em & Hm1 & Hm2).
  split.
  - exists (65 + (n - 1) / 26)%Z, (65 + (n - 1) mod 26)%Z.
    split; [done|]. split; [lia|]. split; [lia|].
    pose proof (Z.div_mod (n - 1) 26 ltac:(lia)). lia.
  - rewrite En, Em. intros [= H1 H2].
    assert (byte (65 + (n - 1) / 26) = byte (65 + (m - 1) / 26)) as Hb1
      by (unfold byte; congruence).
    assert (byte (65 + (n - 1) mod 26) = byte (65 + (m - 1) mod 26)) as Hb2
      by (unfold byte; congruence).
    apply byte_inj in Hb1; [|lia..]. apply byte_inj in Hb2; [|lia..].
    pose proof (Z.div_mod (n - 1) 26 ltac:(lia)).
    pose proof (Z.div_mod (m - 1) 26 ltac:(lia)). lia.
Qed.

Lemma aisle_letters_base_26_witness :
  (∃ c1 c2, main_py._aisle_letters 27 = Some (byte c1 ++ byte c2)
            ∧ (65 ≤ c1 ≤ 90)%Z ∧ (65 ≤ c2 ≤ 90)%Z
            ∧ 27%Z = (26 * (c1 - 65) + (c2 - 65) + 1)%Z)
  ∧ (main_py._aisle_letters 27 = main_py._aisle_letters 676 → 27%Z = 676%Z).
Proof. apply (aisle_letters_base_26 27 676); lia. Defined.

(** X17. Outside 1 to 676 the scheme runs out of letters: the result, when there
    is one, is never a pair of capitals (aisle 677 gets a bracket, aisle 0 an
    at-sign, and far enough below zero [chr] raises). *)
Theorem aisle_letters_out_of_range (n c1 c2 : Z) :
  (n < 1 ∨ 676 < n)%Z →
  (65 ≤ c1 ≤ 90)%Z → (65 ≤ c2 ≤ 90)%Z →
  main_py._aisle_letters n ≠ Some (byte c1 ++ byte c2).
Proof.
  intros Hn Hc1 Hc2. unfold main_py._aisle_letters. simpl.
  pose proof (Z.mod_pos_bound (n - 1) 26 ltac:(lia)) as Hmod.
  pose proof (Z.div_mod (n - 1) 26 ltac:(lia)) as Hdm.
  rewrite (chr_ascii (65 + (n - 1) mod 26)) by lia.
  unfold chr.
  destruct ((65 + (n - 1) / 26 <? 0)%Z || (1114111 <? 65 + (n - 1) / 26)%Z) eqn:E;
    [done|].
  apply orb_false_iff in E as [E1%Z.ltb_ge E2%Z.ltb_ge].
  destruct (Z.ltb_spec (65 + (n - 1) / 26) 128) as [Hlo|Hhi]; simpl.
  - intros [= Hc _].
    assert (byte (65 + (n - 1) / 26) = byte c1) as Hb by (unfold byte; congruence).
    apply byte_inj in Hb; lia.
  - destruct (Z.ltb_spec (65 + (n - 1) / 26) 2048); simpl; [discriminate|].
    destruct (Z.ltb_spec (65 + (n - 1) / 26) 65536); simpl; discriminate.
Qed.

Lemma aisle_letters_out_of_range_witness :
  main_py._aisle_letters 677 ≠ Some (byte 65 ++ byte 65).
Proof. apply (aisle_letters_out_of_range 677 65 65); lia. Defined.

Example aisle_letters_edges :
  main_py._aisle_letters 677 = Some "[A" ∧ main_py._aisle_letters 0 = Some "@Z"
  ∧ main_py._aisle_letters (-1700) = None.
Proof. by repeat split. Qed.

(** X18. [_level_letter] names levels 1 to 26 by the small letters a to z, a
    different one for each level. *)
Theorem level_letter_small_letters (l k : Z) :
  (1 ≤ l ≤ 26)%Z → (1 ≤ k ≤ 26)%Z →
  (∃ c, main_py._level_letter l = Some (byte c) ∧ (97 ≤ c ≤ 122)%Z ∧ c = (96 + l)%Z)
  ∧ (main_py._level_letter l = main_py._level_letter k → l = k).
Proof.
  intros Hl Hk. rewrite !level_letter_in_range by done. split.
  - exists (96 + l)%Z. split; [done|]. lia.
  - intros [= Hc].
    assert (byte (96 + l) = byte (96 + k)) as Hb by (unfold byte; congruence).
    apply byte_inj in Hb; lia.
Qed.

Lemma level_letter_small_letters_witness :
  (∃ c, main_py._level_letter 3 = Some (byte c) ∧ (97 ≤ c ≤ 122)%Z ∧ c = (96 + 3)%Z)
  ∧ (main_py._level_letter 3 = main_py._level_letter 4 → 3%Z = 4%Z).
Proof. apply (level_letter_small_letters 3 4); lia. Defined.

(** ** The generated rows *)

Ltac draw_choice r xs x Hin :=
  let Hx := fresh "Hx" in
  destruct (random_choice_elem r xs) as (x & Hx & Hin); [done|];
  rewrite Hx; simpl.

Ltac draw_status r ws st Hst :=
  let Hx := fresh "Hx" in
  destruct (weighted_status_enum r ws) as (st & Hx & Hst); [done | simpl; lia|];
  rewrite Hx; simpl.

Ltac in_literal H :=
  repeat (apply elem_of_cons in H as [->|H]; [simpl; try lia; try tauto|]);
  try by apply elem_of_nil in H.

Lemma area_type_known (t : string) :
  t = "RACKED" ∨ t = "FLEX" ∨ t = "DOCK" ∨ t = "YARD" →
  t ∈ ["RACKED"; "FLEX"; "DOCK"; "YARD"].
Proof. intros [->|[->|[->| ->]]]; set_solver. Qed.

Lemma racked_row_ok rnd hid area a b l p :
  ∃ r, racked_row rnd hid area a b l p = Some r
       ∧ loc_id r = hid ∧ generated_row_ok r.
Proof.
  unfold racked_row.
  draw_choice (rnd area [a; b; l; p] 0) [1200; 1200; 1000]%Z len Hlen.
  draw_choice (rnd area [a; b; l; p] 1) [800; 1000]%Z wid Hwid.
  draw_choice (rnd area [a; b; l; p] 2) [1500; 1600; 1700]%Z hei Hhei.
  draw_choice (rnd area [a; b; l; p] 3) [800; 1000; 1200; 1500]%Z wgt Hwgt.
  draw_status (rnd area [a; b; l; p] 4) [65; 25; 5; 3; 2] st Hst.
  eexists. split; [done|]. split; [done|].
  split; [done|]. split; [apply area_type_known; tauto|]. simpl.
  assert (0 ≤ len)%Z by in_literal Hlen.
  assert (0 ≤ wid)%Z by in_literal Hwid.
  assert (0 ≤ hei)%Z by in_literal Hhei.
  assert (0 ≤ wgt)%Z by in_literal Hwgt.
  done.
Qed.

Lemma flex1_row_ok rnd i :
  ∃ r, flex1_row rnd i = Some r
       ∧ loc_id r = "FLEX-01-G" ++ fmt_0d 3 i ∧ generated_row_ok r.
Proof.
  unfold flex1_row.
  draw_status (rnd "FLEX-01" [i] 0) [70; 20; 5; 3; 2] st Hst.
  eexists. split; [done|]. split; [done|].
  split; [done|]. split; [apply area_type_known; tauto|]. simpl. lia.
Qed.

Lemma flex2_row_ok rnd gid g s :
  ∃ r, flex2_row rnd gid g s = Some r
       ∧ loc_id r = gid ++ "-S" ++ str_int s ∧ generated_row_ok r.
Proof.
  unfold flex2_row.
  draw_status (rnd "FLEX-02" [g; s] 0) [60; 25; 7; 5; 3] st Hst.
  eexists. split; [done|]. split; [done|].
  split; [done|]. split; [apply area_type_known; tauto|]. simpl.
  case_decide; lia.
Qed.

Lemma dock_row_ok rnd d :
  ∃ r, dock_row rnd d = Some r
       ∧ loc_id r = "DOCK-D" ++ fmt_0d 2 d ∧ generated_row_ok r.
Proof.
  unfold dock_row.
  draw_choice (rnd "DOCK" [d] 0) ["FREE"; "OCCUPIED"] st Hst.
  eexists. split; [done|]. split; [done|].
  split; [|split; [apply area_type_known; tauto | simpl; lia]].
  simpl. unfold enum_status. in_literal Hst.
Qed.

Lemma yard_row_ok rnd y :
  ∃ r, yard_row rnd y = Some r
       ∧ loc_id r = "YARD-PAD-" ++ fmt_0d 2 y ∧ generated_row_ok r.
Proof.
  unfold yard_row.
  draw_choice (rnd "YARD" [y] 0) ["FREE"; "OCCUPIED"; "RESERVED"] st Hst.
  eexists. split; [done|]. split; [done|].
  split; [|split; [apply area_type_known; tauto | simpl; lia]].
  simpl. unfold enum_status. in_literal Hst.
Qed.

Lemma add_flex_dock_yard_appends rnd docks yard :
  appends (flex_dock_yard_ids docks yard) generated_row_ok
    (add_flex_dock_yard rnd docks yard).
Proof.
  unfold add_flex_dock_yard, flex_dock_yard_ids.
  eapply appends_then; [reflexivity| |].
  { eapply appends_for_opt; [reflexivity|]. intros i _.
    destruct (flex1_row_ok rnd i) as (r & Hr & Hid & Hok).
    eapply appends_row; [exact Hr | by rewrite Hid | done]. }
  eapply appends_then; [reflexivity| |].
  { eapply appends_for_opt; [reflexivity|]. intros g _. cbv zeta.
    eapply appends_for_opt; [reflexivity|]. intros s _.
    destruct (flex2_row_ok rnd ("FLEX-02-OVR-" ++ fmt_0d 2 g) g s) as (r & Hr & Hid & Hok).
    eapply appends_row; [exact Hr | by rewrite Hid | done]. }
  eapply appends_then; [reflexivity| |].
  { eapply appends_for_opt; [reflexivity|]. intros d _.
    destruct (dock_row_ok rnd d) as (r & Hr & Hid & Hok).
    eapply appends_row; [exact Hr | by rewrite Hid | done]. }
  eapply appends_for_opt; [reflexivity|]. intros y _.
  destruct (yard_row_ok rnd y) as (r & Hr & Hid & Hok).
  eapply appends_row; [exact Hr | by rewrite Hid | done].
Qed.

Lemma elem_of_seq_1 (n k : nat) : k ∈ seq 1 n → (1 ≤ k ≤ n)%nat.
Proof. rewrite elem_of_seq. lia. Qed.

Lemma main_add_racked_appends rnd area aisles bays levels positions :
  (aisles ≤ 676)%nat → (levels ≤ 26)%nat →
  appends (main_py.racked_ids aisles bays levels positions) generated_row_ok
    (main_py.add_racked rnd area aisles bays levels positions).
Proof.
  intros Haisles Hlevels. unfold main_py.add_racked, main_py.racked_ids.
  eapply appends_for_opt; [reflexivity|]. intros a Ha%elem_of_seq_1.
  destruct (aisle_letters_in_range (Z.of_nat a)) as (-> & _); [lia|]. simpl.
  rewrite app_nil_r.
  eapply appends_for_opt; [reflexivity|]. intros b _.
  eapply appends_for_opt; [reflexivity|]. intros l Hl%elem_of_seq_1.
  eapply appends_for_opt; [reflexivity|]. intros p _.
  rewrite level_letter_in_range by lia. simpl.
  match goal with
  | |- context [racked_row rnd ?hid area a b l p] =>
      destruct (racked_row_ok rnd hid area a b l p) as (r & Hr & Hid & Hok)
  end.
  eapply appends_row; [exact Hr | by rewrite Hid | done].
Qed.

Lemma Main_add_racked_appends rnd area aisles bays levels positions :
  appends (Main_py.racked_ids area aisles bays levels positions) generated_row_ok
    (Main_py.add_racked rnd area aisles bays levels positions).
Proof.
  unfold Main_py.add_racked, Main_py.racked_ids.
  eapply appends_for_opt; [reflexivity|]. intros a _.
  eapply appends_for_opt; [reflexivity|]. intros b _.
  eapply appends_for_opt; [reflexivity|]. intros l _.
  eapply appends_for_opt; [reflexivity|]. intros p _.
  match goal with
  | |- context [racked_row rnd ?hid area a b l p] =>
      destruct (racked_row_ok rnd hid area a b l p) as (r & Hr & Hid & Hok)
  end.
  eapply appends_row; [exact Hr | by rewrite Hid | done].
Qed.

(** ** The generated datasets *)

Lemma main_dataset_appends rnd :
  ∃ rows, main_py._generate_fake_dataset rnd = Some rows
          ∧ loc_id <$> rows = main_py_ids ∧ Forall generated_row_ok rows.
Proof.
  apply (appends_from_empty main_py_ids generated_row_ok
           (λ rows0,
              rows ← main_py.add_racked rnd "RACK-01" 12 10 3 1 rows0;
              rows ← main_py.add_racked rnd "RACK-02" 10 10 3 1 rows;
              rows ← main_py.add_racked rnd "RACK-03" 8 10 3 1 rows;
              add_flex_dock_yard rnd 4 20 rows)).
  unfold main_py_ids.
  eapply appends_then; [reflexivity | apply main_add_racked_appends; lia|].
  eapply appends_then; [reflexivity | apply main_add_racked_appends; lia|].
  eapply appends_then; [reflexivity | apply main_add_racked_appends; lia|].
  apply add_flex_dock_yard_appends.
Qed.

Lemma Main_dataset_appends rnd docks yard :
  ∃ rows, Main_py._generate_fake_dataset rnd docks yard = Some rows
          ∧ loc_id <$> rows = Main_py_ids docks yard ∧ Forall generated_row_ok rows.
Proof.
  apply (appends_from_empty (Main_py_ids docks yard) generated_row_ok
           (λ rows0,
              rows ← Main_py.add_racked rnd "RACK-01" 12 10 3 1 rows0;
              rows ← Main_py.add_racked rnd "RACK-02" 10 10 3 1 rows;
              rows ← Main_py.add_racked rnd "RACK-03" 8 10 3 1 rows;
              add_flex_dock_yard rnd docks yard rows)).
  unfold Main_py_ids.
  eapply appends_then; [reflexivity | apply Main_add_racked_appends|].
  eapply appends_then; [reflexivity | apply Main_add_racked_appends|].
  eapply appends_then; [reflexivity | apply Main_add_racked_appends|].
  apply add_flex_dock_yard_appends.
Qed.

(** *** Ids are told apart by their digits *)

Lemma fmt_0d_2_digits (n : nat) :
  (n < 100)%nat →
  fmt_0d 2 n = String (digit (n / 10)) (String (digit (n mod 10)) "").
Proof.
  intros Hn.
  do 100 (destruct n as [|n]; [reflexivity|]). lia.
Qed.

Lemma digit_inj (d e : nat) : (d < 10)%nat → (e < 10)%nat → digit d = digit e → d = e.
Proof.
  intros Hd He H. apply (f_equal Ascii.nat_of_ascii) in H. unfold digit in H.
  rewrite !Ascii.nat_ascii_embedding in H by lia. lia.
Qed.

Lemma two_digits_inj (n m : nat) :
  (n < 100)%nat → (m < 100)%nat →
  digit (n / 10) = digit (m / 10) → digit (n mod 10) = digit (m mod 10) → n = m.
Proof.
  intros Hn Hm H1 H2.
  apply digit_inj in H1; [|apply Nat.Div0.div_lt_upper_bound; lia..].
  apply digit_inj in H2; [|apply Nat.mod_upper_bound; lia..].
  rewrite (Nat.div_mod_eq n 10), (Nat.div_mod_eq m 10). lia.
Qed.

Lemma byte_shape (z : Z) : byte z = String (Ascii.ascii_of_N (Z.to_N z)) "".
Proof. reflexivity. Qed.

Lemma Main_row_id_inj area area' a a' b b' l l' p p' :
  (a < 100 ∧ b < 100 ∧ l < 100 ∧ p < 100)%nat →
  (a' < 100 ∧ b' < 100 ∧ l' < 100 ∧ p' < 100)%nat →
  Main_py.row_id area a b l p = Main_py.row_id area' a' b' l' p' →
  area = area' ∧ a = a' ∧ b = b' ∧ l = l' ∧ p = p'.
Proof.
  intros (Ha & Hb & Hl & Hp) (Ha' & Hb' & Hl' & Hp'). unfold Main_py.row_id.
  rewrite !fmt_0d_2_digits by done. simpl.
  intros [= A1 A2 B1 B2 L1 L2 P1 P2 Harea].
  repeat split; [done | by apply two_digits_inj..].
Qed.

Lemma main_human_id_inj c1 c2 c1' c2' b b' l l' :
  (b < 100)%nat → (b' < 100)%nat →
  main_py.human_id (byte c1 ++ byte c2) b (byte l)
  = main_py.human_id (byte c1' ++ byte c2') b' (byte l') →
  byte c1 = byte c1' ∧ byte c2 = byte c2' ∧ b = b' ∧ byte l = byte l'.
Proof.
  intros Hb Hb'. unfold main_py.human_id.
  rewrite !fmt_0d_2_digits by done. rewrite !byte_shape. simpl.
  intros [= C1 C2 B1 B2 L].
  rewrite C1, C2, L. repeat split. by apply two_digits_inj.
Qed.

Lemma elem_of_option_list_Some {A} (x : A) (o : option A) :
  x ∈ option_list o ↔ o = Some x.
Proof.
  destruct o as [y|]; simpl.
  - rewrite list_elem_of_singleton. split; congruence.
  - split; [intros H; by apply elem_of_nil in H | discriminate].
Qed.

Lemma main_racked_id_inj a a' b b' l l' letters letters' lvl lvl' :
  (1 ≤ a ≤ 676 ∧ b < 100 ∧ 1 ≤ l ≤ 26)%nat →
  (1 ≤ a' ≤ 676 ∧ b' < 100 ∧ 1 ≤ l' ≤ 26)%nat →
  main_py._aisle_letters (Z.of_nat a) = Some letters →
  main_py._aisle_letters (Z.of_nat a') = Some letters' →
  main_py._level_letter (Z.of_nat l) = Some lvl →
  main_py._level_letter (Z.of_nat l') = Some lvl' →
  main_py.human_id letters b lvl = main_py.human_id letters' b' lvl' →
  a = a' ∧ b = b' ∧ l = l'.
Proof.
  intros (Ha & Hb & Hl) (Ha' & Hb' & Hl') Hlet Hlet' Hlvl Hlvl' Hid.
  destruct (aisle_letters_in_range (Z.of_nat a)) as (Ea & Ha1 & Ha2); [lia|].
  destruct (aisle_letters_in_range (Z.of_nat a')) as (Ea' & Ha1' & Ha2'); [lia|].
  rewrite Ea in Hlet. rewrite Ea' in Hlet'.
  rewrite level_letter_in_range in Hlvl by lia.
  rewrite level_letter_in_range in Hlvl' by lia.
  injection Hlet as <-. injection Hlet' as <-.
  injection Hlvl as <-. injection Hlvl' as <-.
  apply main_human_id_inj in Hid as (C1 & C2 & -> & Lv); [|done..].
  apply byte_inj in C1; [|lia..]. apply byte_inj in C2; [|lia..].
  apply byte_inj in Lv; [|lia..].
  pose proof (Z.div_mod (Z.of_nat a - 1) 26 ltac:(lia)).
  pose proof (Z.div_mod (Z.of_nat a' - 1) 26 ltac:(lia)).
  lia.
Qed.

Ltac open_comprehension :=
  set_unfold;
  repeat match goal with
         | H : ∃ _, _ |- _ => destruct H
         | H : _ ∧ _ |- _ => destruct H
         | H : _ ∨ False |- _ => destruct H as [H|[]]
         | H : _ ∈ option_list _ |- _ => apply elem_of_option_list_Some in H
         end;
  subst.

Lemma Main_racked_ids_apart area area' A B L P A' B' L' P' y :
  (A < 100 ∧ B < 100 ∧ L < 100 ∧ P < 100)%nat →
  (A' < 100 ∧ B' < 100 ∧ L' < 100 ∧ P' < 100)%nat →
  y ∈ Main_py.racked_ids area A B L P →
  y ∈ Main_py.racked_ids area' A' B' L' P' →
  area = area'.
Proof.
  intros HA HA'. unfold Main_py.racked_ids. intros Hy Hy'. open_comprehension.
  match goal with
  | H : Main_py.row_id _ _ _ _ _ = Main_py.row_id _ _ _ _ _ |- _ =>
      apply Main_row_id_inj in H; [naive_solver | lia | lia]
  end.
Qed.

Lemma NoDup_option_list {X} (o : option X) : NoDup (option_list o).
Proof. destruct o; simpl; [apply NoDup_singleton | constructor]. Qed.

(** A comprehension has no duplicates once each of its elements gives back
    the loop values that built it. *)
Ltac nodup_comprehension inj :=
  cbv beta;
  lazymatch goal with
  | |- NoDup (_ ≫= _) =>
      apply NoDup_bind;
      [ intros; open_comprehension; inj
      | intros; nodup_comprehension inj
      | first [apply NoDup_seq | apply NoDup_option_list] ]
  | |- NoDup [_] => apply NoDup_singleton
  end.

Lemma Main_racked_ids_NoDup area A B L P :
  (A < 100 ∧ B < 100 ∧ L < 100 ∧ P < 100)%nat →
  NoDup (Main_py.racked_ids area A B L P).
Proof.
  intros HA. unfold Main_py.racked_ids.
  nodup_comprehension
    ltac:(idtac;
          match goal with
          | H : Main_py.row_id _ _ _ _ _ = Main_py.row_id _ _ _ _ _ |- _ =>
              apply Main_row_id_inj in H; [naive_solver | lia | lia]
          end).
Qed.

Ltac by_main_racked_id_inj :=
  match goal with
  | Hid : main_py.human_id ?l1 ?b1 ?v1 = main_py.human_id ?l2 ?b2 ?v2 |- _ =>
      match goal with
      | Ha1 : main_py._aisle_letters (Z.of_nat ?a1) = Some l1 |- _ =>
      match goal with
      | Ha2 : main_py._aisle_letters (Z.of_nat ?a2) = Some l2 |- _ =>
      match goal with
      | Hv1 : main_py._level_letter (Z.of_nat ?k1) = Some v1 |- _ =>
      match goal with
      | Hv2 : main_py._level_letter (Z.of_nat ?k2) = Some v2 |- _ =>
          destruct (main_racked_id_inj a1 a2 b1 b2 k1 k2 l1 l2 v1 v2)
            as (? & ? & ?); [lia | lia | assumption..|]; first [lia | congruence]
      end end end end
  end.

Lemma main_racked_ids_NoDup A B L P :
  (A ≤ 676 ∧ B < 100 ∧ L ≤ 26 ∧ P ≤ 1)%nat →
  NoDup (main_py.racked_ids A B L P).
Proof.
  intros HA. unfold main_py.racked_ids.
  nodup_comprehension
    ltac:(idtac; first [lia | congruence | by_main_racked_id_inj]).
Qed.

Lemma main_racked_ids_grow A A' B L P y :
  (A ≤ A')%nat → y ∈ main_py.racked_ids A B L P → y ∈ main_py.racked_ids A' B L P.
Proof.
  intros HA. unfold main_py.racked_ids. rewrite !list_elem_of_bind.
  intros (a & Hy & Ha). exists a. split; [done|].
  apply elem_of_seq in Ha. apply elem_of_seq. lia.
Qed.

Lemma main_racked_ids_start y A B L P :
  y ∈ main_py.racked_ids A B L P → starts_with char_W y = true.
Proof. unfold main_py.racked_ids. intros Hy. by open_comprehension. Qed.

Lemma Main_racked_ids_start y area A B L P :
  y ∈ Main_py.racked_ids area A B L P → starts_with char_R y = true.
Proof. unfold Main_py.racked_ids. intros Hy. by open_comprehension. Qed.

(** The 174 FLEX, DOCK and YARD ids are pairwise distinct and start with
    neither of the two RACKED prefixes. *)
Lemma flex_dock_yard_ids_facts :
  length (flex_dock_yard_ids 4 20) = 174
  ∧ NoDup (flex_dock_yard_ids 4 20)
  ∧ Forall (λ y, starts_with char_W y = false ∧ starts_with char_R y = false)
      (flex_dock_yard_ids 4 20).
Proof.
  split; [by vm_compute|].
  split; apply (bool_decide_unpack _); by vm_compute.
Qed.

Lemma racked_lengths :
  length (main_py.racked_ids 12 10 3 1) = 360
  ∧ length (main_py.racked_ids 10 10 3 1) = 300
  ∧ length (main_py.racked_ids 8 10 3 1) = 240
  ∧ length (Main_py.racked_ids "RACK-01" 12 10 3 1) = 360
  ∧ length (Main_py.racked_ids "RACK-02" 10 10 3 1) = 300
  ∧ length (Main_py.racked_ids "RACK-03" 8 10 3 1) = 240.
Proof. repeat split; by vm_compute. Qed.

(** Repeats of ids already seen add nothing to the number of distinct ids. *)
Lemma remove_dups_length_covered (l1 l2 o : list string) :
  NoDup l1 → NoDup o →
  (∀ x, x ∈ l1 → x ∉ o) → (∀ x, x ∈ l2 → x ∈ l1) →
  length (remove_dups (l1 ++ l2 ++ o)) = (length l1 + length o)%nat.
Proof.
  intros H1 Ho Hdisj Hcov. rewrite <- length_app.
  apply Permutation_length, NoDup_Permutation.
  - apply NoDup_remove_dups.
  - apply NoDup_app. by repeat split.
  - intros x. rewrite elem_of_remove_dups, !elem_of_app. naive_solver.
Qed.

Lemma main_py_ids_count :
  length main_py_ids = 1074 ∧ length (remove_dups main_py_ids) = 534.
Proof.
  destruct racked_lengths as (L12 & L10 & L8 & _).
  destruct flex_dock_yard_ids_facts as (Lo & Ho & Hstart).
  unfold main_py_ids. split.
  - rewrite !length_app, L12, L10, L8, Lo. reflexivity.
  - rewrite (app_assoc (main_py.racked_ids 10 10 3 1)).
    rewrite remove_dups_length_covered; [by rewrite L12, Lo| | | |].
    + apply main_racked_ids_NoDup. lia.
    + exact Ho.
    + intros x Hx Hxo. apply main_racked_ids_start in Hx.
      rewrite Forall_forall in Hstart. destruct (Hstart x Hxo). congruence.
    + intros x [Hx|Hx]%elem_of_app; revert Hx; apply main_racked_ids_grow; lia.
Qed.

Lemma Main_py_ids_distinct :
  length (Main_py_ids 4 20) = 1074 ∧ NoDup (Main_py_ids 4 20).
Proof.
  destruct racked_lengths as (_ & _ & _ & L1 & L2 & L3).
  destruct flex_dock_yard_ids_facts as (Lo & Ho & Hstart).
  rewrite Forall_forall in Hstart.
  assert (∀ area A x, x ∈ Main_py.racked_ids area A 10 3 1 →
                      x ∉ flex_dock_yard_ids 4 20) as Hother.
  { intros area A x Hx Hxo. apply Main_racked_ids_start in Hx.
    destruct (Hstart x Hxo). congruence. }
  assert (∀ area area' A A' x, area ≠ area' → (A < 100)%nat → (A' < 100)%nat →
            x ∈ Main_py.racked_ids area A 10 3 1 →
            x ∉ Main_py.racked_ids area' A' 10 3 1) as Hapart.
  { intros area area' A A' x Hne HA HA' Hx Hx'. apply Hne.
    eapply (Main_racked_ids_apart area area' A 10 3 1 A' 10 3 1 x); (done || lia). }
  unfold Main_py_ids. split.
  - rewrite !length_app, L1, L2, L3, Lo. reflexivity.
  - apply NoDup_app. split; [apply Main_racked_ids_NoDup; lia|]. split.
    { intros x Hx [Hx'|[Hx'|Hx']%elem_of_app]%elem_of_app.
      - revert Hx'. by apply (Hapart "RACK-01" "RACK-02" 12 10); (done || lia).
      - revert Hx'. by apply (Hapart "RACK-01" "RACK-03" 12 8); (done || lia).
      - by eapply Hother. }
    apply NoDup_app. split; [apply Main_racked_ids_NoDup; lia|]. split.
    { intros x Hx [Hx'|Hx']%elem_of_app.
      - revert Hx'. by apply (Hapart "RACK-02" "RACK-03" 10 8); (done || lia).
      - by eapply Hother. }
    apply NoDup_app. split; [apply Main_racked_ids_NoDup; lia|]. split; [|exact Ho].
    intros x Hx Hx'. by eapply Hother.
Qed.

(** X19. [main.py]: whatever the random draws, the generator writes 1074 rows,
    but its RACKED ids leave out the area, so every id of RACK-02 and RACK-03
    repeats one of RACK-01: the dataset holds only 534 distinct ids, the
    loaded catalogue has 534 locations, and [health] reports 534. *)
Theorem main_generated_ids_collide (rnd : Rng) :
  ∃ rows, main_py._generate_fake_dataset rnd = Some rows
          ∧ length rows = 1074
          ∧ length (remove_dups (loc_id <$> rows)) = 534
          ∧ length (load_locations rows) = 534
          ∧ health (init_state rows) = (init_state rows, inr (RespHealth 534)).
Proof.
  destruct (main_dataset_appends rnd) as (rows & Hrows & Hids & _).
  destruct main_py_ids_count as (Hlen & Hdistinct).
  assert (length (load_locations rows) = 534) as Hload.
  { rewrite load_locations_length, Hids. exact Hdistinct. }
  exists rows. split; [exact Hrows|]. split.
  { rewrite <- Hlen, <- Hids. symmetry. apply length_fmap. }
  split; [rewrite Hids; exact Hdistinct|]. split; [exact Hload|].
  unfold health. rewrite <- Hload. reflexivity.
Qed.

(** X20. [Main.py]: whatever the random draws, the generator writes 1074 rows
    with pairwise distinct ids, so the loaded catalogue holds every row, in
    file order, and [health] reports 1074. *)
Theorem Main_generated_ids_distinct (rnd : Rng) :
  ∃ rows, Main_py._generate_fake_dataset rnd 4 20 = Some rows
          ∧ length rows = 1074
          ∧ NoDup (loc_id <$> rows)
          ∧ Dict.values (load_locations rows) = rows
          ∧ health (init_state rows) = (init_state rows, inr (RespHealth 1074)).
Proof.
  destruct (Main_dataset_appends rnd 4 20) as (rows & Hrows & Hids & _).
  destruct Main_py_ids_distinct as (Hlen & Hnd).
  assert (length rows = 1074) as Hrl.
  { rewrite <- Hlen, <- Hids. symmetry. apply length_fmap. }
  assert (Dict.values (load_locations rows) = rows) as Hvals.
  { apply load_locations_distinct. rewrite Hids. exact Hnd. }
  exists rows. split; [exact Hrows|]. split; [exact Hrl|].
  split; [rewrite Hids; exact Hnd|]. split; [exact Hvals|].
  unfold health. do 3 f_equal.
  transitivity (length (Dict.values (load_locations rows))).
  - unfold Dict.values. symmetry. apply length_map.
  - rewrite Hvals. exact Hrl.
Qed.

(** X21. Both generators, whatever the random draws, produce only well-formed
    rows: the status is one of the five values, the area type one of the
    four, no dimension is negative; so a catalogue loaded from a generated
    file carries valid statuses only. *)
Theorem generated_rows_well_formed (rnd : Rng) (docks yard : nat) :
  (∃ rows, main_py._generate_fake_dataset rnd = Some rows
           ∧ Forall generated_row_ok rows
           ∧ statuses_valid (load_locations rows))
  ∧ (∃ rows, Main_py._generate_fake_dataset rnd docks yard = Some rows
             ∧ Forall generated_row_ok rows
             ∧ statuses_valid (load_locations rows)).
Proof.
  assert (∀ rows, Forall generated_row_ok rows → statuses_valid (load_locations rows)) as H.
  { intros rows Hok. apply load_locations_valid.
    eapply Forall_impl; [exact Hok|]. by intros r [? _]. }
  split.
  - destruct (main_dataset_appends rnd) as (rows & Hrows & _ & Hok). eauto.
  - destruct (Main_dataset_appends rnd docks yard) as (rows & Hrows & _ & Hok). eauto.
Qed.
